(** * The todo application's state controller (src/src/App.tsx)

    A shallow embedding of the [App] component's state logic.  The six
    [useState] cells become the fields of one record, each functional
    [setX (cur => ...)] update becomes a function on that record, and every
    [async] handler is cut at its single [await] into the part that runs
    when the handler is called and the part that runs when the awaited API
    promise settles.  A small event machine on top of these parts lets
    several handlers be in flight at once, and carries the timer of the
    error banner. *)

From Stdlib Require Import ZArith List String Bool Arith Lia.
Import ListNotations.
Open Scope string_scope.
Open Scope Z_scope.
Open Scope list_scope.

(** ** Data model *)

(** Modelled from the spec: the record type of [./types/Todo], which is
    imported by App.tsx and not part of the sources at hand.  The fields are
    the ones App.tsx reads and writes ([id], [userId], [title],
    [completed]); JavaScript numbers holding ids are integers. *)
Record Todo : Type := mkTodo {
  id : Z;
  userId : Z;
  title : string;
  completed : bool
}.

(** Modelled from the spec: the enumeration of [./types/TodoStatusFilter]. *)
Inductive TodoStatusFilter : Type := All | Active | Completed.

(** [Partial<Todo>]: every field of [Todo] may be present or absent. *)
Record PartialTodo : Type := mkPartial {
  p_id : option Z;
  p_userId : option Z;
  p_title : option string;
  p_completed : option bool
}.

(** The object literals [{ completed: b }] used by the bulk toggle. *)
Definition only_completed (b : bool) : PartialTodo :=
  {| p_id := None; p_userId := None; p_title := None; p_completed := Some b |}.

(** The argument of [createTodo]: a todo without its [id]. *)
Record NewTodo : Type := mkNewTodo {
  n_userId : Z;
  n_completed : bool;
  n_title : string
}.

Definition USER_ID : Z := 10884.

Definition or_else {A : Type} (o : option A) (d : A) : A :=
  match o with Some a => a | None => d end.

(** The object spread [{ ...todo, ...dataToEdit }]: the fields present in
    [dataToEdit] win, the others are kept. *)
Definition spread (todo : Todo) (dataToEdit : PartialTodo) : Todo :=
  {| id := or_else (p_id dataToEdit) (id todo);
     userId := or_else (p_userId dataToEdit) (userId todo);
     title := or_else (p_title dataToEdit) (title todo);
     completed := or_else (p_completed dataToEdit) (completed todo) |}.

(** The object spread [{ ...newTodo, id: 0 }] of [addTodo]. *)
Definition with_id (newTodo : NewTodo) (i : Z) : Todo :=
  {| id := i;
     userId := n_userId newTodo;
     title := n_title newTodo;
     completed := n_completed newTodo |}.

(** The six state cells of [App], with their initial values. *)
Record AppState : Type := mkApp {
  todos : list Todo;
  statusFilter : TodoStatusFilter;
  error : option string;
  tempTodo : option Todo;
  inputTitle : string;
  isLoadingTodo : list Z
}.

Definition initialState : AppState :=
  {| todos := [];
     statusFilter := All;
     error := None;
     tempTodo := None;
     inputTitle := "";
     isLoadingTodo := [0] |}.

(** ** State setters *)

Definition setTodos (f : list Todo -> list Todo) (s : AppState) : AppState :=
  {| todos := f (todos s);
     statusFilter := statusFilter s;
     error := error s;
     tempTodo := tempTodo s;
     inputTitle := inputTitle s;
     isLoadingTodo := isLoadingTodo s |}.

Definition setStatusFilter (status : TodoStatusFilter) (s : AppState) : AppState :=
  {| todos := todos s;
     statusFilter := status;
     error := error s;
     tempTodo := tempTodo s;
     inputTitle := inputTitle s;
     isLoadingTodo := isLoadingTodo s |}.

Definition setError (e : option string) (s : AppState) : AppState :=
  {| todos := todos s;
     statusFilter := statusFilter s;
     error := e;
     tempTodo := tempTodo s;
     inputTitle := inputTitle s;
     isLoadingTodo := isLoadingTodo s |}.

Definition setTempTodo (t : option Todo) (s : AppState) : AppState :=
  {| todos := todos s;
     statusFilter := statusFilter s;
     error := error s;
     tempTodo := t;
     inputTitle := inputTitle s;
     isLoadingTodo := isLoadingTodo s |}.

Definition setInputTitle (t : string) (s : AppState) : AppState :=
  {| todos := todos s;
     statusFilter := statusFilter s;
     error := error s;
     tempTodo := tempTodo s;
     inputTitle := t;
     isLoadingTodo := isLoadingTodo s |}.

Definition setIsLoading (f : list Z -> list Z) (s : AppState) : AppState :=
  {| todos := todos s;
     statusFilter := statusFilter s;
     error := error s;
     tempTodo := tempTodo s;
     inputTitle := inputTitle s;
     isLoadingTodo := f (isLoadingTodo s) |}.

(** ** The filter helper *)

(** Modelled from the spec: [getFilteredTodos] of [./helpers], which App.tsx
    imports and calls and which is not part of the sources at hand.  The spec
    gives it as the subset matching All: everything, Active: completed =
    false, Completed: completed = true. *)
Definition getFilteredTodos (l : list Todo) (status : TodoStatusFilter) : list Todo :=
  match status with
  | All => l
  | Active => filter (fun todo => negb (completed todo)) l
  | Completed => filter (fun todo => completed todo) l
  end.

Definition visibleTodos (s : AppState) : list Todo :=
  getFilteredTodos (todos s) (statusFilter s).

(** ** The handlers, cut at their [await] *)

(** What an API promise can settle to.  The value of a fulfilled
    [deleteTodo] or [updateTodo] is dropped by the handlers. *)
Inductive Outcome (A : Type) : Type :=
| Fulfilled (value : A)
| Rejected.
Arguments Fulfilled {A} value.
Arguments Rejected {A}.

(** [addTodo], up to [await createTodo(newTodo)]: returns the new state and
    the argument passed to [createTodo]. *)
Definition addTodo_call (todoTitle : string) (s : AppState) : AppState * NewTodo :=
  let newTodo :=
    {| n_userId := USER_ID; n_completed := false; n_title := todoTitle |} in
  (setTempTodo (Some (with_id newTodo 0)) s, newTodo).

(** [addTodo], from the settlement of [createTodo] on: the rest of [try],
    or [catch], and then [finally]. *)
Definition addTodo_settle (r : Outcome Todo) (s : AppState) : AppState :=
  let s1 :=
    match r with
    | Fulfilled createdTodo =>
        setTodos (fun currentTodos => currentTodos ++ [createdTodo]) s
    | Rejected => setError (Some "Unable to add a todo") s
    end in
  setInputTitle "" (setTempTodo None s1).

(** [x !== todoId] on numbers. *)
Definition neq (x y : Z) : bool := negb (Z.eqb x y).

(** [removeTodo], up to [await deleteTodo(todoId)]. *)
Definition removeTodo_call (todoId : Z) (s : AppState) : AppState :=
  setIsLoading (fun currentTodoIds => currentTodoIds ++ [todoId]) s.

(** [removeTodo], from the settlement of [deleteTodo] on. *)
Definition removeTodo_settle (todoId : Z) (r : Outcome unit) (s : AppState) : AppState :=
  let s1 :=
    match r with
    | Fulfilled _ =>
        setTodos
          (fun currentTodos => filter (fun todo => neq (id todo) todoId) currentTodos) s
    | Rejected => setError (Some "Unable to delete a todo") s
    end in
  setIsLoading (fun currentTodos => filter (fun i => neq i todoId) currentTodos) s1.

(** [editTodo], up to [await updateTodo(todoId, dataToEdit)]: returns the
    new state and the copy [dataToEdit] of [properties]. *)
Definition editTodo_call (todoId : Z) (properties : PartialTodo) (s : AppState)
  : AppState * PartialTodo :=
  let dataToEdit := properties in
  (setIsLoading (fun currentTodoIds => currentTodoIds ++ [todoId]) s, dataToEdit).

(** The updater passed to [setTodos] by a successful [editTodo]. *)
Definition edit_merge (todoId : Z) (dataToEdit : PartialTodo) (currentTodos : list Todo)
  : list Todo :=
  map (fun todo => if neq (id todo) todoId then todo else spread todo dataToEdit)
      currentTodos.

(** [editTodo], from the settlement of [updateTodo] on. *)
Definition editTodo_settle (todoId : Z) (dataToEdit : PartialTodo) (r : Outcome unit)
    (s : AppState) : AppState :=
  let s1 :=
    match r with
    | Fulfilled _ => setTodos (edit_merge todoId dataToEdit) s
    | Rejected => setError (Some "Unable to update a todo") s
    end in
  setIsLoading (fun currentTodos => filter (fun i => neq i todoId) currentTodos) s1.

(** [todos.every((todo) => todo.completed)]. *)
Definition areAllCompleted (l : list Todo) : bool :=
  forallb (fun todo => completed todo) l.

(** The [editTodo] calls made by [handleToggleCompletedToActive], in the
    order of the [forEach]. *)
Definition handleToggleCompletedToActive (l : list Todo) : list (Z * PartialTodo) :=
  let all := areAllCompleted l in
  flat_map
    (fun todo =>
       if all then [(id todo, only_completed false)]
       else if negb (completed todo) then [(id todo, only_completed true)]
       else [])
    l.

(** The [removeTodo] calls made by [removeAllCompletedTodos]. *)
Definition removeAllCompletedTodos (l : list Todo) : list Z :=
  flat_map (fun todo => if completed todo then [id todo] else []) l.

(** ** Derived values of a render *)

Definition activeTodosCount (s : AppState) : nat :=
  List.length (filter (fun todo => negb (completed todo)) (todos s)).

Definition completedTodosCount (s : AppState) : nat :=
  List.length (filter (fun todo => completed todo) (todos s)).

Definition isVisibleClearCompleted (s : AppState) : bool :=
  (0 <? completedTodosCount s)%nat.

Definition isVisibleTodoList (s : AppState) : bool :=
  (0 <? List.length (todos s))%nat.

Definition isVisibleToggleAllActive (s : AppState) : bool :=
  (0 <? List.length (todos s))%nat.

Definition isActiveToggleAllActive (s : AppState) : bool :=
  (completedTodosCount s =? List.length (todos s))%nat.

(** ** The event machine

    The API module [./api/todos] is outside the sources at hand; App.tsx
    only depends on each of its four functions returning a promise.  A
    [Call] is such a promise that has not settled yet, together with what
    the handler awaiting it still has in its closure. *)
Inductive Call : Type :=
| getTodos (userId : Z)
| createTodo (newTodo : NewTodo)
| deleteTodo (todoId : Z)
| updateTodo (todoId : Z) (dataToEdit : PartialTodo).

(** How a promise settles. *)
Inductive Settlement : Type :=
| resolves_todos (todosFromServer : list Todo)
| resolves_todo (createdTodo : Todo)
| resolves_ack
| rejects (message : string).

(** The code that runs when call [c] settles with [r].  [None] when the
    value does not have the type the handler awaits (an array for
    [getTodos], a todo for [createTodo]); the handlers of [deleteTodo] and
    [updateTodo] drop the value, so any fulfilment is a success there. *)
Definition resume (c : Call) (r : Settlement) (s : AppState) : option AppState :=
  match c, r with
  | getTodos _, resolves_todos todosFromServer =>
      Some (setTodos (fun _ => todosFromServer) s)
  | getTodos _, rejects message => Some (setError (Some message) s)
  | getTodos _, _ => None
  | createTodo _, resolves_todo createdTodo =>
      Some (addTodo_settle (Fulfilled createdTodo) s)
  | createTodo _, rejects _ => Some (addTodo_settle Rejected s)
  | createTodo _, _ => None
  | deleteTodo todoId, rejects _ => Some (removeTodo_settle todoId Rejected s)
  | deleteTodo todoId, _ => Some (removeTodo_settle todoId (Fulfilled tt) s)
  | updateTodo todoId dataToEdit, rejects _ =>
      Some (editTodo_settle todoId dataToEdit Rejected s)
  | updateTodo todoId dataToEdit, _ =>
      Some (editTodo_settle todoId dataToEdit (Fulfilled tt) s)
  end.

(** The component between two events: its state, the promises still
    pending, and the timeout of the error banner, as the milliseconds left
    until it fires ([None]: no timeout is armed). *)
Record World : Type := mkWorld {
  app : AppState;
  inflight : list Call;
  timer : option nat
}.

(** After mount: the first effect has called [getTodos(USER_ID)], the second
    one found [error] null and armed nothing. *)
Definition initialWorld : World :=
  {| app := initialState; inflight := [getTodos USER_ID]; timer := None |}.

Inductive Event : Type :=
| onAddTodo (todoTitle : string)
| onRemoveTodo (todoId : Z)
| onEditTodo (todoId : Z) (properties : PartialTodo)
| onRemoveAllCompletedTodos
| onToggleAll
| onSelectStatusFilter (status : TodoStatusFilter)
| onInputTitle (todoTitle : string)
| onAddError (errorText : string)
| onCloseError
| settles (n : nat) (r : Settlement)
| elapses (ms : nat).

(** One call of [removeTodo] from inside a [forEach]. *)
Definition call_remove (st : AppState * list Call) (todoId : Z) : AppState * list Call :=
  (removeTodo_call todoId (fst st), snd st ++ [deleteTodo todoId]).

(** One call of [editTodo] from inside a [forEach]. *)
Definition call_edit (st : AppState * list Call) (c : Z * PartialTodo)
  : AppState * list Call :=
  let (s', dataToEdit) := editTodo_call (fst c) (snd c) (fst st) in
  (s', snd st ++ [updateTodo (fst c) dataToEdit]).

(** [l] without its [n]-th element. *)
Fixpoint drop_nth {A : Type} (n : nat) (l : list A) : list A :=
  match l, n with
  | [], _ => []
  | _ :: l', O => l'
  | x :: l', S n' => x :: drop_nth n' l'
  end.

(** The state changes an event makes, before the effects of the commit. *)
Definition handle (e : Event) (w : World) : World :=
  match e with
  | onAddTodo todoTitle =>
      let (s', newTodo) := addTodo_call todoTitle (app w) in
      {| app := s'; inflight := inflight w ++ [createTodo newTodo]; timer := timer w |}
  | onRemoveTodo todoId =>
      let st := call_remove (app w, inflight w) todoId in
      {| app := fst st; inflight := snd st; timer := timer w |}
  | onEditTodo todoId properties =>
      let st := call_edit (app w, inflight w) (todoId, properties) in
      {| app := fst st; inflight := snd st; timer := timer w |}
  | onRemoveAllCompletedTodos =>
      let st := fold_left call_remove (removeAllCompletedTodos (todos (app w)))
                          (app w, inflight w) in
      {| app := fst st; inflight := snd st; timer := timer w |}
  | onToggleAll =>
      let st := fold_left call_edit (handleToggleCompletedToActive (todos (app w)))
                          (app w, inflight w) in
      {| app := fst st; inflight := snd st; timer := timer w |}
  | onSelectStatusFilter status =>
      {| app := setStatusFilter status (app w); inflight := inflight w; timer := timer w |}
  | onInputTitle todoTitle =>
      {| app := setInputTitle todoTitle (app w); inflight := inflight w; timer := timer w |}
  | onAddError errorText =>
      {| app := setError (Some errorText) (app w); inflight := inflight w; timer := timer w |}
  | onCloseError =>
      {| app := setError None (app w); inflight := inflight w; timer := timer w |}
  | settles n r =>
      match nth_error (inflight w) n with
      | Some c =>
          match resume c r (app w) with
          | Some s' =>
              {| app := s'; inflight := drop_nth n (inflight w); timer := timer w |}
          | None => w
          end
      | None => w
      end
  | elapses ms =>
      match timer w with
      | Some remaining =>
          if (remaining <=? ms)%nat
          then {| app := setError None (app w); inflight := inflight w; timer := None |}
          else {| app := app w; inflight := inflight w; timer := Some (remaining - ms)%nat |}
      | None => w
      end
  end.

(** [if (error)]: null and the empty string are falsy. *)
Definition truthy (e : option string) : bool :=
  match e with
  | Some message => negb (String.eqb message "")
  | None => false
  end.

(** The comparison of the dependency [error] between two renders. *)
Definition same_error (a b : option string) : bool :=
  match a, b with
  | None, None => true
  | Some x, Some y => String.eqb x y
  | _, _ => false
  end.

(** The effect with dependency list [[error]]: when [error] differs from
    the one of the last render the cleanup clears the armed timeout and the
    effect body arms a new one of 3000 ms if [error] is truthy; when it is
    the same, neither runs. *)
Definition error_effect (before after : option string) (t : option nat) : option nat :=
  if same_error before after then t
  else if truthy after then Some 3000%nat else None.

Definition step (e : Event) (w : World) : World :=
  let w' := handle e w in
  {| app := app w';
     inflight := inflight w';
     timer := error_effect (error (app w)) (error (app w')) (timer w') |}.

(** Events in the order they happen. *)
Definition run (tr : list Event) (w : World) : World :=
  fold_left (fun w e => step e w) tr w.

(** The milliseconds a trace takes. *)
Fixpoint elapsed (tr : list Event) : nat :=
  match tr with
  | [] => 0
  | elapses ms :: tr' => ms + elapsed tr'
  | _ :: tr' => elapsed tr'
  end.

(** ** Notions used to state the properties *)

(** [l1] is [l2] with some elements left out, the others in their order. *)
Inductive Subseq {A : Type} : list A -> list A -> Prop :=
| Subseq_nil : Subseq [] []
| Subseq_skip : forall x l1 l2, Subseq l1 l2 -> Subseq l1 (x :: l2)
| Subseq_keep : forall x l1 l2, Subseq l1 l2 -> Subseq (x :: l1) (x :: l2).

(** The number of records of [l] on which [p] holds, counted one by one. *)
Fixpoint count_where (p : Todo -> bool) (l : list Todo) : nat :=
  match l with
  | [] => O
  | todo :: l' => if p todo then S (count_where p l') else count_where p l'
  end.

(** [c] is a pending remove or edit of record [todoId]. *)
Definition mutates (todoId : Z) (c : Call) : bool :=
  match c with
  | deleteTodo i => Z.eqb i todoId
  | updateTodo i _ => Z.eqb i todoId
  | _ => false
  end.

(** An event that neither reports an error nor dismisses one. *)
Definition quiet (e : Event) : bool :=
  match e with
  | onAddError _ => false
  | onCloseError => false
  | settles _ (rejects _) => false
  | _ => true
  end.

(** A timeout is armed exactly while a non-empty message is shown, and has
    at most 3000 ms to go. *)
Definition timer_inv (w : World) : Prop :=
  match timer w with
  | Some remaining =>
      truthy (error (app w)) = true /\ (0 < remaining <= 3000)%nat
  | None => truthy (error (app w)) = false
  end.

(** Ids given out by the server are positive. *)
Definition persisted (todo : Todo) : bool := 0 <? id todo.

(** An edit that does not overwrite the id with a non-positive one. *)
Definition keeps_persisted (d : PartialTodo) : bool :=
  match p_id d with
  | Some i => 0 <? i
  | None => true
  end.

(** Events in which the server hands out positive ids only and the rows
    ask for removals and edits of persisted records only. *)
Definition on_persisted (e : Event) : bool :=
  match e with
  | onRemoveTodo todoId => 0 <? todoId
  | onEditTodo todoId properties => (0 <? todoId) && keeps_persisted properties
  | settles _ (resolves_todos todosFromServer) => forallb persisted todosFromServer
  | settles _ (resolves_todo createdTodo) => persisted createdTodo
  | _ => true
  end.

(** Pending calls that act on persisted records only. *)
Definition call_on_persisted (c : Call) : bool :=
  match c with
  | deleteTodo todoId => 0 <? todoId
  | updateTodo todoId dataToEdit => (0 <? todoId) && keeps_persisted dataToEdit
  | _ => true
  end.

(** What holds of every world reached through [on_persisted] events. *)
Definition placeholder_inv (w : World) : Prop :=
  In 0 (isLoadingTodo (app w))
  /\ forallb persisted (todos (app w)) = true
  /\ forallb call_on_persisted (inflight w) = true.

(** ** Notions used to state further properties *)

(** No two records of [l] carry the same id. *)
Fixpoint unique_ids (l : list Todo) : bool :=
  match l with
  | [] => true
  | todo :: l' => negb (existsb (fun u => Z.eqb (id u) (id todo)) l') && unique_ids l'
  end.

(** Some record of [l] carries [todoId]. *)
Definition has_id (todoId : Z) (l : list Todo) : bool :=
  existsb (fun todo => Z.eqb (id todo) todoId) l.

(** [{ ...d1, ...d2 }] on partial records. *)
Definition later (d1 d2 : PartialTodo) : PartialTodo :=
  {| p_id := match p_id d2 with Some i => Some i | None => p_id d1 end;
     p_userId := match p_userId d2 with Some u => Some u | None => p_userId d1 end;
     p_title := match p_title d2 with Some t => Some t | None => p_title d1 end;
     p_completed :=
       match p_completed d2 with Some c => Some c | None => p_completed d1 end |}.

(** A pending remove or edit. *)
Definition is_mutation (c : Call) : bool :=
  match c with
  | deleteTodo _ => true
  | updateTodo _ _ => true
  | _ => false
  end.

Definition rejected (r : Settlement) : bool :=
  match r with
  | rejects _ => true
  | _ => false
  end.

(** The event is a promise being fulfilled. *)
Definition fulfils (e : Event) : bool :=
  match e with
  | settles _ r => negb (rejected r)
  | _ => false
  end.

(** The calls [cs] settle one after the other with the outcomes paired
    with them. *)
Definition settled (crs : list (Call * Settlement)) (s : AppState) : AppState :=
  fold_left
    (fun s cr => match resume (fst cr) (snd cr) s with Some s' => s' | None => s end)
    crs s.

(** Every pending id other than the initial 0 belongs to a remove or an
    edit that is still in flight. *)
Definition pending_backed (w : World) : Prop :=
  forall j, In j (isLoadingTodo (app w)) ->
            j = 0 \/ existsb (mutates j) (inflight w) = true.

(** The placeholder, when there is one, is the copy with id 0 of a record
    whose creation is still in flight. *)
Definition placeholder_backed (w : World) : Prop :=
  match tempTodo (app w) with
  | None => True
  | Some todo =>
      exists todoTitle,
        todo = {| id := 0; userId := USER_ID; title := todoTitle; completed := false |}
        /\ In (createTodo {| n_userId := USER_ID; n_completed := false;
                             n_title := todoTitle |})
              (inflight w)
  end.

(** What [removeAllCompletedTodos] should leave of [l] when its calls
    settle with the outcomes [rs], read record by record: a record that is
    not completed stays, a completed one stays iff its own removal is
    rejected (or has no outcome yet). *)
Fixpoint clear_with (l : list Todo) (rs : list Settlement) : list Todo :=
  match l with
  | [] => []
  | todo :: l' =>
      if completed todo
      then match rs with
           | r :: rs' =>
               if rejected r then todo :: clear_with l' rs' else clear_with l' rs'
           | [] => todo :: clear_with l' []
           end
      else todo :: clear_with l' rs
  end.

(** ** Basic facts about the setters and the call parts *)

Lemma neq_refl (x : Z) : neq x x = false.
Proof. unfold neq. now rewrite Z.eqb_refl. Qed.

Lemma neq_true_iff (x y : Z) : neq x y = true <-> x <> y.
Proof.
  unfold neq. rewrite negb_true_iff. now rewrite Z.eqb_neq.
Qed.

Lemma neq_false_iff (x y : Z) : neq x y = false <-> x = y.
Proof.
  unfold neq. rewrite negb_false_iff. now rewrite Z.eqb_eq.
Qed.

Lemma not_in_filter_neq (todoId : Z) (l : list Z) :
  ~ In todoId (filter (fun i => neq i todoId) l).
Proof.
  intros H. apply filter_In in H. destruct H as [_ H].
  now rewrite neq_refl in H.
Qed.

Lemma in_filter_neq (todoId j : Z) (l : list Z) :
  j <> todoId -> In j l -> In j (filter (fun i => neq i todoId) l).
Proof.
  intros Hj Hin. apply filter_In. split; [assumption|].
  now apply neq_true_iff.
Qed.

Lemma count_filter_neq (todoId j : Z) (l : list Z) :
  j <> todoId ->
  count_occ Z.eq_dec (filter (fun i => neq i todoId) l) j = count_occ Z.eq_dec l j.
Proof.
  intros Hj. induction l as [|x l IH]; simpl; [reflexivity|].
  destruct (neq x todoId) eqn:E; simpl.
  - destruct (Z.eq_dec x j); now rewrite IH.
  - apply neq_false_iff in E. subst x.
    destruct (Z.eq_dec todoId j) as [E|E]; [now subst|assumption].
Qed.

Lemma filter_neq_idem (todoId : Z) (l : list Z) :
  filter (fun i => neq i todoId) (filter (fun i => neq i todoId) l)
  = filter (fun i => neq i todoId) l.
Proof.
  induction l as [|x l IH]; simpl; [reflexivity|].
  destruct (neq x todoId) eqn:E; simpl; [rewrite E; now f_equal|assumption].
Qed.

Lemma isLoading_removeTodo_settle (todoId : Z) (r : Outcome unit) (s : AppState) :
  isLoadingTodo (removeTodo_settle todoId r s)
  = filter (fun i => neq i todoId) (isLoadingTodo s).
Proof. now destruct r. Qed.

Lemma isLoading_editTodo_settle (todoId : Z) (d : PartialTodo) (r : Outcome unit)
    (s : AppState) :
  isLoadingTodo (editTodo_settle todoId d r s)
  = filter (fun i => neq i todoId) (isLoadingTodo s).
Proof. now destruct r. Qed.

(** What a settlement of a pending remove or edit of [todoId] does to the
    pending ids, whatever the outcome. *)
Lemma isLoading_resume (todoId : Z) (c : Call) (r : Settlement) (s : AppState) :
  mutates todoId c = true ->
  exists s', resume c r s = Some s'
    /\ isLoadingTodo s' = filter (fun i => neq i todoId) (isLoadingTodo s).
Proof.
  destruct c as [u|nt|i|i d]; simpl; try discriminate; intros E;
    apply Z.eqb_eq in E; subst i; destruct r; eexists; split; reflexivity.
Qed.

Lemma step_settles (w : World) (n : nat) (c : Call) (r : Settlement) (s' : AppState) :
  nth_error (inflight w) n = Some c ->
  resume c r (app w) = Some s' ->
  app (step (settles n r) w) = s'
  /\ inflight (step (settles n r) w) = drop_nth n (inflight w).
Proof.
  intros Hn Hr. unfold step, handle. rewrite Hn, Hr. simpl. now split.
Qed.

(** ** The filter helper *)

Lemma filter_Subseq {A : Type} (p : A -> bool) (l : list A) : Subseq (filter p l) l.
Proof.
  induction l as [|x l IH]; simpl; [constructor|].
  destruct (p x); now constructor.
Qed.

Lemma filter_split_length {A : Type} (p : A -> bool) (l : list A) :
  (List.length (filter p l) + List.length (filter (fun x => negb (p x)) l)
   = List.length l)%nat.
Proof.
  induction l as [|x l IH]; simpl; [reflexivity|].
  destruct (p x); simpl; lia.
Qed.

(** C4.  [getFilteredTodos] with All returns the collection as it is; with
    Active it returns a subsequence of the collection (original order) that
    holds exactly the records with completed = false, each as often as the
    collection does; with Completed the same for completed = true; and the
    two together account for every record of the collection. *)
Theorem getFilteredTodos_spec (l : list Todo) :
  getFilteredTodos l All = l
  /\ Subseq (getFilteredTodos l Active) l
  /\ (forall todo, In todo (getFilteredTodos l Active)
                   <-> In todo l /\ completed todo = false)
  /\ Subseq (getFilteredTodos l Completed) l
  /\ (forall todo, In todo (getFilteredTodos l Completed)
                   <-> In todo l /\ completed todo = true)
  /\ (List.length (getFilteredTodos l Active)
      + List.length (getFilteredTodos l Completed) = List.length l)%nat
  /\ (forall todo, In todo l ->
        In todo (getFilteredTodos l Active)
        <-> ~ In todo (getFilteredTodos l Completed)).
Proof.
  unfold getFilteredTodos.
  split; [reflexivity|].
  split; [apply filter_Subseq|].
  split; [intros todo; rewrite filter_In, negb_true_iff; tauto|].
  split; [apply filter_Subseq|].
  split; [intros todo; rewrite filter_In; tauto|].
  split.
  - pose proof (filter_split_length (fun todo => completed todo) l). lia.
  - intros todo Hin. rewrite !filter_In.
    destruct (completed todo); simpl; split; intros H.
    + destruct H; discriminate.
    + exfalso. apply H. now split.
    + intros [_ H']. discriminate.
    + now split.
Qed.

(** ** Derived values *)

Lemma count_where_filter (p : Todo -> bool) (l : list Todo) :
  List.length (filter p l) = count_where p l.
Proof.
  induction l as [|x l IH]; simpl; [reflexivity|].
  destruct (p x); simpl; now rewrite IH.
Qed.

Lemma count_where_le (p : Todo -> bool) (l : list Todo) :
  (count_where p l <= List.length l)%nat.
Proof.
  induction l as [|x l IH]; simpl; [lia|]. destruct (p x); lia.
Qed.

Lemma count_where_all (p : Todo -> bool) (l : list Todo) :
  count_where p l = List.length l <-> forallb p l = true.
Proof.
  induction l as [|x l IH]; simpl; [tauto|].
  pose proof (count_where_le p l).
  destruct (p x); simpl.
  - rewrite <- IH. lia.
  - split; [lia|discriminate].
Qed.

(** C8.  The active count is the number of records with completed = false,
    the completed count the number with completed = true; the list and
    footer are shown iff the collection is not empty, the clear-completed
    button iff the completed count is positive, and the toggle-all control
    is in its active state iff the completed count equals the total. *)
Theorem derived_values (s : AppState) :
  activeTodosCount s = count_where (fun todo => negb (completed todo)) (todos s)
  /\ completedTodosCount s = count_where (fun todo => completed todo) (todos s)
  /\ (isVisibleTodoList s = true <-> todos s <> [])
  /\ (isVisibleClearCompleted s = true
      <-> (count_where (fun todo => completed todo) (todos s) > 0)%nat)
  /\ (isActiveToggleAllActive s = true
      <-> count_where (fun todo => completed todo) (todos s) = List.length (todos s)).
Proof.
  unfold activeTodosCount, completedTodosCount, isVisibleTodoList,
    isVisibleClearCompleted, isActiveToggleAllActive, completedTodosCount.
  rewrite !count_where_filter.
  split; [reflexivity|]. split; [reflexivity|].
  split; [|split].
  - rewrite Nat.ltb_lt. destruct (todos s); simpl; split; intros H.
    + lia.
    + congruence.
    + discriminate.
    + lia.
  - rewrite Nat.ltb_lt. lia.
  - now rewrite Nat.eqb_eq.
Qed.

(** The toggle-all control is active exactly when every record is
    completed, which is the test the bulk toggle makes. *)
Lemma isActiveToggleAllActive_all (s : AppState) :
  isActiveToggleAllActive s = areAllCompleted (todos s).
Proof.
  unfold isActiveToggleAllActive, completedTodosCount, areAllCompleted.
  rewrite count_where_filter.
  destruct (forallb _ (todos s)) eqn:E.
  - apply Nat.eqb_eq. now apply count_where_all.
  - apply Nat.eqb_neq. intros H. apply count_where_all in H. congruence.
Qed.

(** ** Add *)

(** C3.  [addTodo] first shows the placeholder: a record with id 0,
    completed = false, the given title and the fixed user id, and asks the
    server to create the same record without an id.  When the call settles,
    whatever the state then is: on success the returned record, and nothing
    else, is appended to the collection; on failure the message is set and
    the collection is as it was; in both cases the placeholder is null and
    the input title is the empty string. *)
Theorem addTodo_spec (todoTitle : string) (s s' : AppState) (createdTodo : Todo)
    (r : Outcome Todo) :
  tempTodo (fst (addTodo_call todoTitle s))
  = Some {| id := 0; userId := USER_ID; title := todoTitle; completed := false |}
  /\ snd (addTodo_call todoTitle s)
     = {| n_userId := USER_ID; n_completed := false; n_title := todoTitle |}
  /\ todos (fst (addTodo_call todoTitle s)) = todos s
  /\ todos (addTodo_settle (Fulfilled createdTodo) s') = todos s' ++ [createdTodo]
  /\ error (addTodo_settle (Fulfilled createdTodo) s') = error s'
  /\ todos (addTodo_settle Rejected s') = todos s'
  /\ error (addTodo_settle Rejected s') = Some "Unable to add a todo"
  /\ tempTodo (addTodo_settle r s') = None
  /\ inputTitle (addTodo_settle r s') = "".
Proof.
  repeat split; destruct r; reflexivity.
Qed.

(** The same through the event machine, with the request the only one
    pending: the scenario of the spec for any title and any returned
    record. *)
Lemma add_then_settle (w : World) (todoTitle : string) (createdTodo : Todo) :
  inflight w = [] ->
  let w' := run [onAddTodo todoTitle; settles 0 (resolves_todo createdTodo)] w in
  todos (app w') = todos (app w) ++ [createdTodo]
  /\ tempTodo (app w') = None
  /\ inputTitle (app w') = ""
  /\ inflight w' = [].
Proof.
  intros H. unfold run, step, handle; simpl. rewrite H; simpl. now repeat split.
Qed.

(** ** Remove and edit: failure *)

(** C2.  A failed remove or edit leaves the collection as it was: neither
    the part of the handler that runs at the call nor the one that runs
    when the API call fails touches [todos], whatever the state is then;
    and the failure sets the message of its operation. *)
Theorem failure_keeps_todos (todoId : Z) (properties : PartialTodo) (s s' : AppState) :
  todos (removeTodo_call todoId s) = todos s
  /\ todos (removeTodo_settle todoId Rejected s') = todos s'
  /\ error (removeTodo_settle todoId Rejected s') = Some "Unable to delete a todo"
  /\ todos (removeTodo_settle todoId Rejected (removeTodo_call todoId s)) = todos s
  /\ todos (fst (editTodo_call todoId properties s)) = todos s
  /\ todos (editTodo_settle todoId properties Rejected s') = todos s'
  /\ error (editTodo_settle todoId properties Rejected s') = Some "Unable to update a todo"
  /\ todos (editTodo_settle todoId (snd (editTodo_call todoId properties s)) Rejected
              (fst (editTodo_call todoId properties s))) = todos s.
Proof.
  repeat split.
Qed.

(** The same in the event machine: a rejection of a pending [deleteTodo] or
    [updateTodo], with anything else in flight. *)
Lemma rejected_mutation (w : World) (n : nat) (c : Call) (todoId : Z) (message : string) :
  nth_error (inflight w) n = Some c ->
  mutates todoId c = true ->
  let w' := step (settles n (rejects message)) w in
  todos (app w') = todos (app w)
  /\ error (app w')
     = Some (match c with
             | deleteTodo _ => "Unable to delete a todo"
             | _ => "Unable to update a todo"
             end).
Proof.
  intros Hn Hm. unfold step, handle. rewrite Hn.
  destruct c; simpl in *; try discriminate; now split.
Qed.

(** ** Edit: idempotence *)

Lemma spread_only_completed_idem (todo : Todo) (b : bool) :
  spread (spread todo (only_completed b)) (only_completed b)
  = spread todo (only_completed b).
Proof. reflexivity. Qed.

Lemma id_spread_only_completed (todo : Todo) (b : bool) :
  id (spread todo (only_completed b)) = id todo.
Proof. reflexivity. Qed.

(** C7.  Merging the edit [{ completed: b }] of record [todoId] into the
    collection twice gives the collection that merging it once gives, and
    two successful settlements of that edit leave the state that one
    leaves. *)
Theorem completed_edit_idempotent (todoId : Z) (b : bool) (l : list Todo) (s : AppState) :
  edit_merge todoId (only_completed b) (edit_merge todoId (only_completed b) l)
  = edit_merge todoId (only_completed b) l
  /\ editTodo_settle todoId (only_completed b) (Fulfilled tt)
       (editTodo_settle todoId (only_completed b) (Fulfilled tt) s)
     = editTodo_settle todoId (only_completed b) (Fulfilled tt) s.
Proof.
  assert (H : forall l,
    edit_merge todoId (only_completed b) (edit_merge todoId (only_completed b) l)
    = edit_merge todoId (only_completed b) l).
  { clear l. intros l. unfold edit_merge. rewrite map_map. apply map_ext.
    intros todo. destruct (neq (id todo) todoId) eqn:E.
    - now rewrite E.
    - rewrite id_spread_only_completed, E. apply spread_only_completed_idem. }
  split; [apply H|].
  unfold editTodo_settle, setIsLoading, setTodos; simpl.
  now rewrite H, filter_neq_idem.
Qed.

(** ** Bulk toggle *)

Lemma flat_map_singleton {A B : Type} (f : A -> B) (l : list A) :
  flat_map (fun x => [f x]) l = map f l.
Proof. induction l as [|x l IH]; simpl; now rewrite ?IH. Qed.

Lemma flat_map_guard {A B : Type} (p : A -> bool) (f : A -> B) (l : list A) :
  flat_map (fun x => if p x then [f x] else []) l = map f (filter p l).
Proof.
  induction l as [|x l IH]; simpl; [reflexivity|].
  destruct (p x); simpl; now rewrite IH.
Qed.

Lemma toggle_edits (l : list Todo) :
  handleToggleCompletedToActive l
  = if areAllCompleted l
    then map (fun todo => (id todo, only_completed false)) l
    else map (fun todo => (id todo, only_completed true))
             (filter (fun todo => negb (completed todo)) l).
Proof.
  unfold handleToggleCompletedToActive. destruct (areAllCompleted l).
  - apply flat_map_singleton.
  - apply flat_map_guard.
Qed.

(** All edits of a bulk toggle succeeding, in the order they were issued:
    every record ends with the flag the toggle aimed at, and nothing else
    about it changes. *)
Lemma fold_edit_merge (b : bool) (ids : list Z) (l : list Todo) :
  fold_left (fun cur i => edit_merge i (only_completed b) cur) ids l
  = map (fun todo =>
           if existsb (Z.eqb (id todo)) ids
           then spread todo (only_completed b) else todo) l.
Proof.
  revert l. induction ids as [|i ids IH]; intros l; simpl.
  - now rewrite map_id.
  - rewrite IH. unfold edit_merge. rewrite map_map. apply map_ext. intros todo.
    unfold neq. destruct (id todo =? i) eqn:E; simpl; [|reflexivity].
    now destruct (existsb (Z.eqb (id todo)) ids).
Qed.

Lemma toggle_all_succeeding (l : list Todo) :
  fold_left (fun cur c => edit_merge (fst c) (snd c) cur)
            (handleToggleCompletedToActive l) l
  = map (fun todo => spread todo (only_completed (negb (areAllCompleted l)))) l.
Proof.
  rewrite toggle_edits.
  set (b := negb (areAllCompleted l)).
  assert (H : forall ids : list Z,
    fold_left (fun cur c => edit_merge (fst c) (snd c) cur)
              (map (fun i => (i, only_completed b)) ids) l
    = fold_left (fun cur i => edit_merge i (only_completed b) cur) ids l).
  { intros ids. generalize l as cur.
    induction ids as [|i ids IH]; intros cur; simpl; [reflexivity|apply IH]. }
  destruct (areAllCompleted l) eqn:Hall; subst b; simpl in *.
  - rewrite <- (map_map id (fun i => (i, only_completed false))), H, fold_edit_merge.
    apply map_ext_in. intros todo Hin.
    assert (E : existsb (Z.eqb (id todo)) (map id l) = true).
    { apply existsb_exists. exists (id todo). split; [now apply in_map|].
      apply Z.eqb_refl. }
    now rewrite E.
  - rewrite <- (map_map id (fun i => (i, only_completed true))), H, fold_edit_merge.
    apply map_ext_in. intros todo Hin.
    destruct (existsb _ _) eqn:E; [reflexivity|].
    destruct (completed todo) eqn:Hc; [destruct todo; simpl in *; now subst|].
    exfalso. rewrite <- not_true_iff_false in E. apply E.
    apply existsb_exists. exists (id todo). split; [|apply Z.eqb_refl].
    apply in_map, filter_In. split; [assumption|]. now rewrite Hc.
Qed.

(** The bulk toggle of a two-record collection, one record completed and
    one not, with nothing else pending: one edit is issued. *)
Lemma toggle_mixed_pair (w : World) (a b : Todo) :
  todos (app w) = [a; b] ->
  inflight w = [] ->
  completed a = negb (completed b) ->
  app (run [onToggleAll; settles 0 resolves_ack] w)
  = setTodos (fun _ => [spread a (only_completed true); spread b (only_completed true)])
             (setIsLoading
                (fun ids =>
                   filter (fun i => neq i (if completed a then id b else id a))
                          (ids ++ [if completed a then id b else id a]))
                (app w))
  /\ inflight (run [onToggleAll; settles 0 resolves_ack] w) = [].
Proof.
  intros Ht Hf Hc. destruct a as [ia ua ta ca], b as [ib ub tb cb]; simpl in *.
  subst ca. unfold run, step, handle; simpl. rewrite Ht, Hf.
  unfold handleToggleCompletedToActive, areAllCompleted; simpl.
  destruct cb; simpl;
    unfold editTodo_settle, setTodos, setIsLoading, edit_merge; simpl; rewrite Ht;
    simpl; rewrite neq_refl; (split; [|reflexivity]).
  - destruct (neq ib ia) eqn:E; reflexivity.
  - destruct (neq ia ib) eqn:E; reflexivity.
Qed.

(** The bulk toggle of a two-record collection with both records
    completed: two edits are issued, and they may settle in either order. *)
Lemma toggle_completed_pair (w : World) (a b : Todo) (first : nat) :
  todos (app w) = [a; b] ->
  inflight w = [] ->
  completed a = true ->
  completed b = true ->
  (first <= 1)%nat ->
  todos (app (run [onToggleAll; settles first resolves_ack; settles 0 resolves_ack] w))
  = [spread a (only_completed false); spread b (only_completed false)]
  /\ inflight (run [onToggleAll; settles first resolves_ack; settles 0 resolves_ack] w)
     = [].
Proof.
  intros Ht Hf Ha Hb Hfirst.
  destruct a as [ia ua ta ca], b as [ib ub tb cb]; simpl in *. subst ca cb.
  assert (Hcase : first = 0%nat \/ first = 1%nat) by lia.
  unfold run, step, handle; simpl. rewrite Ht, Hf.
  unfold handleToggleCompletedToActive, areAllCompleted; simpl.
  destruct Hcase; subst first; simpl;
    unfold editTodo_settle, setTodos, setIsLoading, edit_merge; simpl; rewrite Ht; simpl;
    rewrite !neq_refl; (split; [|reflexivity]);
    destruct (neq ib ia) eqn:E1; destruct (neq ia ib) eqn:E2; simpl;
    rewrite ?neq_refl, ?E1, ?E2; reflexivity.
Qed.

(** C1.  The bulk toggle issues, when every record is completed, one edit
    [{ completed: false }] per record, and otherwise one edit
    [{ completed: true }] per record with completed = false and none for
    the others.  From two records of which one is completed, a bulk toggle
    whose edit succeeds leaves both completed, and a second one whose edits
    succeed, in either order, leaves both not completed. *)
Theorem bulk_toggle (l : list Todo) :
  handleToggleCompletedToActive l
  = (if areAllCompleted l
     then map (fun todo => (id todo, only_completed false)) l
     else map (fun todo => (id todo, only_completed true))
              (filter (fun todo => negb (completed todo)) l))
  /\ forall (w : World) (a b : Todo) (first : nat),
       todos (app w) = [a; b] ->
       inflight w = [] ->
       completed a = negb (completed b) ->
       (first <= 1)%nat ->
       let w1 := run [onToggleAll; settles 0 resolves_ack] w in
       let w2 :=
         run [onToggleAll; settles first resolves_ack; settles 0 resolves_ack] w1 in
       map completed (todos (app w1)) = [true; true]
       /\ map id (todos (app w1)) = [id a; id b]
       /\ map completed (todos (app w2)) = [false; false]
       /\ map id (todos (app w2)) = [id a; id b]
       /\ inflight w2 = [].
Proof.
  split; [apply toggle_edits|].
  intros w a b first Ht Hf Hc Hfirst w1 w2.
  destruct (toggle_mixed_pair w a b Ht Hf Hc) as [H1 H1f]. fold w1 in H1, H1f.
  assert (Ht1 : todos (app w1)
                = [spread a (only_completed true); spread b (only_completed true)])
    by now rewrite H1.
  destruct (toggle_completed_pair w1 _ _ first Ht1 H1f eq_refl eq_refl Hfirst)
    as [H2 H2f]. fold w2 in H2, H2f.
  rewrite Ht1, H2. now repeat split.
Qed.

Lemma bulk_toggle_witness :
  let w := run [settles 0 (resolves_todos [mkTodo 1 USER_ID "a" true;
                                           mkTodo 2 USER_ID "b" false])]
               initialWorld in
  let w1 := run [onToggleAll; settles 0 resolves_ack] w in
  let w2 := run [onToggleAll; settles 1 resolves_ack; settles 0 resolves_ack] w1 in
  map completed (todos (app w1)) = [true; true]
  /\ map completed (todos (app w2)) = [false; false].
Proof.
  intros w w1 w2.
  destruct (proj2 (bulk_toggle []) w (mkTodo 1 USER_ID "a" true)
                  (mkTodo 2 USER_ID "b" false) 1%nat)
    as (H1 & _ & H2 & _); [reflexivity | reflexivity | reflexivity | lia |].
  split; assumption.
Defined.

(** ** The pending ids *)

Lemma settles_unmarks (w : World) (n : nat) (c : Call) (r : Settlement) (todoId : Z) :
  nth_error (inflight w) n = Some c ->
  mutates todoId c = true ->
  ~ In todoId (isLoadingTodo (app (step (settles n r) w))).
Proof.
  intros Hn Hm.
  destruct (isLoading_resume todoId c r (app w) Hm) as (s' & Hr & Hl).
  destruct (step_settles w n c r s' Hn Hr) as [Ha _].
  rewrite Ha, Hl. apply not_in_filter_neq.
Qed.

Lemma nth_error_last {A : Type} (l : list A) (x : A) :
  nth_error (l ++ [x]) (List.length l) = Some x.
Proof.
  rewrite nth_error_app2 by lia. now rewrite Nat.sub_diag.
Qed.

(** C5.  When a pending remove or edit of record [todoId] settles, resolved
    or failed, [todoId] is not among the pending ids afterwards, whatever
    else is in flight; in particular after a remove or an edit that is
    called and then settles. *)
Theorem settled_id_not_pending (w : World) (n : nat) (c : Call) (r : Settlement)
    (todoId : Z) (properties : PartialTodo) :
  (nth_error (inflight w) n = Some c ->
   mutates todoId c = true ->
   ~ In todoId (isLoadingTodo (app (step (settles n r) w))))
  /\ ~ In todoId
        (isLoadingTodo
           (app (run [onRemoveTodo todoId; settles (List.length (inflight w)) r] w)))
  /\ ~ In todoId
        (isLoadingTodo
           (app (run [onEditTodo todoId properties;
                      settles (List.length (inflight w)) r] w))).
Proof.
  split; [apply settles_unmarks|].
  split.
  - apply (settles_unmarks (step (onRemoveTodo todoId) w) _ (deleteTodo todoId)).
    + apply nth_error_last.
    + apply Z.eqb_refl.
  - apply (settles_unmarks (step (onEditTodo todoId properties) w) _
             (updateTodo todoId properties)).
    + apply nth_error_last.
    + apply Z.eqb_refl.
Qed.

Lemma settled_id_not_pending_witness :
  let w := run [settles 0 (resolves_todos [mkTodo 4 USER_ID "x" false]);
                onRemoveTodo 4] initialWorld in
  isLoadingTodo (app w) = [0; 4]
  /\ ~ In 4 (isLoadingTodo (app (step (settles 0 (rejects "503")) w))).
Proof.
  intros w. split; [reflexivity|].
  apply (proj1 (settled_id_not_pending w 0%nat (deleteTodo 4) (rejects "503") 4
                  (only_completed true)));
    reflexivity.
Defined.

(** A settlement takes every occurrence of its id out of the pending ids,
    also those put there by other operations on the same record. *)
Lemma first_settlement_unmarks_id :
  let w := run [settles 0 (resolves_todos [mkTodo 7 USER_ID "x" false]);
                onRemoveTodo 7;
                onEditTodo 7 (only_completed true)] initialWorld in
  let w' := step (settles 0 (rejects "503")) w in
  isLoadingTodo (app w) = [0; 7; 7]
  /\ inflight w' = [updateTodo 7 (only_completed true)]
  /\ ~ In 7 (isLoadingTodo (app w')).
Proof.
  simpl. repeat split. intros [H|[]]. discriminate.
Qed.

(** C6, amended.  The settlement of a pending remove or edit of record
    [todoId] removes every occurrence of [todoId] from the pending ids and
    nothing else: [todoId] is not pending afterwards, also when another
    operation on it is still in flight, and every other id is pending as
    often as before. *)
Theorem settlement_removes_own_id (w : World) (n : nat) (c : Call) (r : Settlement)
    (todoId : Z) :
  nth_error (inflight w) n = Some c ->
  mutates todoId c = true ->
  let w' := step (settles n r) w in
  isLoadingTodo (app w') = filter (fun i => neq i todoId) (isLoadingTodo (app w))
  /\ count_occ Z.eq_dec (isLoadingTodo (app w')) todoId = 0%nat
  /\ (forall j, j <> todoId ->
        count_occ Z.eq_dec (isLoadingTodo (app w')) j
        = count_occ Z.eq_dec (isLoadingTodo (app w)) j)
  /\ inflight w' = drop_nth n (inflight w).
Proof.
  intros Hn Hm w'.
  destruct (isLoading_resume todoId c r (app w) Hm) as (s' & Hr & Hl).
  destruct (step_settles w n c r s' Hn Hr) as [Ha Hf].
  subst w'. rewrite Ha, Hl, Hf.
  split; [reflexivity|]. split; [|split; [|reflexivity]].
  - apply count_occ_not_In, not_in_filter_neq.
  - intros j Hj. now apply count_filter_neq.
Qed.

Lemma settlement_removes_own_id_witness :
  let w := run [settles 0 (resolves_todos [mkTodo 7 USER_ID "x" false;
                                           mkTodo 8 USER_ID "y" true]);
                onRemoveTodo 7;
                onEditTodo 8 (only_completed false);
                onEditTodo 7 (only_completed true)] initialWorld in
  let w' := step (settles 0 resolves_ack) w in
  isLoadingTodo (app w) = [0; 7; 8; 7]
  /\ isLoadingTodo (app w') = [0; 8].
Proof.
  intros w w'. split; [reflexivity|].
  destruct (settlement_removes_own_id w 0%nat (deleteTodo 7) resolves_ack 7)
    as [H _]; [reflexivity | reflexivity |].
  exact H.
Defined.

(** ** The bulk operations start their calls one after the other *)

Lemma fold_call_remove (ids : list Z) (st : AppState * list Call) :
  fold_left call_remove ids st
  = (setIsLoading (fun currentTodoIds => currentTodoIds ++ ids) (fst st),
     snd st ++ map deleteTodo ids).
Proof.
  revert st. induction ids as [|i ids IH]; intros [s fl].
  - destruct s; unfold setIsLoading; simpl. now rewrite !app_nil_r.
  - simpl fold_left. rewrite IH. unfold call_remove, removeTodo_call, setIsLoading.
    simpl. now rewrite <- !app_assoc.
Qed.

Lemma fold_call_edit (edits : list (Z * PartialTodo)) (st : AppState * list Call) :
  fold_left call_edit edits st
  = (setIsLoading (fun currentTodoIds => currentTodoIds ++ map fst edits) (fst st),
     snd st ++ map (fun c => updateTodo (fst c) (snd c)) edits).
Proof.
  revert st. induction edits as [|[i d] edits IH]; intros [s fl].
  - destruct s; unfold setIsLoading; simpl. now rewrite !app_nil_r.
  - simpl fold_left. rewrite IH. unfold call_edit, editTodo_call, setIsLoading.
    simpl. now rewrite <- !app_assoc.
Qed.

(** ** The placeholder id stays pending *)

Lemma forallb_drop_nth {A : Type} (p : A -> bool) (n : nat) (l : list A) :
  forallb p l = true -> forallb p (drop_nth n l) = true.
Proof.
  revert n. induction l as [|x l IH]; intros n H; [now destruct n|].
  apply andb_true_iff in H. destruct H as [Hx Hl].
  destruct n; simpl; [assumption|]. rewrite Hx. now apply IH.
Qed.

Lemma forallb_filter {A : Type} (p q : A -> bool) (l : list A) :
  forallb p l = true -> forallb p (filter q l) = true.
Proof.
  rewrite !forallb_forall. intros H x Hx. apply H.
  apply filter_In in Hx. tauto.
Qed.

Lemma forallb_nth_error {A : Type} (p : A -> bool) (n : nat) (l : list A) (x : A) :
  forallb p l = true -> nth_error l n = Some x -> p x = true.
Proof.
  rewrite forallb_forall. intros H Hn. apply H. eapply nth_error_In, Hn.
Qed.

Lemma persisted_removals (l : list Todo) :
  forallb persisted l = true ->
  forallb call_on_persisted (map deleteTodo (removeAllCompletedTodos l)) = true.
Proof.
  unfold removeAllCompletedTodos.
  induction l as [|todo l IH]; simpl; [trivial|].
  rewrite andb_true_iff. intros [Ht Hl].
  destruct (completed todo); simpl; [|now apply IH].
  unfold persisted in Ht. rewrite Ht. now apply IH.
Qed.

Lemma persisted_toggle_edits (l : list Todo) :
  forallb persisted l = true ->
  forallb call_on_persisted
    (map (fun c => updateTodo (fst c) (snd c)) (handleToggleCompletedToActive l)) = true.
Proof.
  unfold handleToggleCompletedToActive. generalize (areAllCompleted l) as all.
  intros all. induction l as [|todo l IH]; simpl; [trivial|].
  rewrite andb_true_iff. intros [Ht Hl]. unfold persisted in Ht.
  destruct all; simpl.
  - rewrite Ht. now apply IH.
  - destruct (completed todo); simpl; [now apply IH|]. rewrite Ht. now apply IH.
Qed.

Lemma persisted_edit_merge (todoId : Z) (d : PartialTodo) (l : list Todo) :
  keeps_persisted d = true ->
  forallb persisted l = true ->
  forallb persisted (edit_merge todoId d l) = true.
Proof.
  intros Hd. unfold edit_merge.
  induction l as [|todo l IH]; simpl; [trivial|].
  rewrite !andb_true_iff. intros [Ht Hl]. split; [|now apply IH].
  destruct (neq (id todo) todoId); [assumption|].
  unfold persisted, spread, keeps_persisted in *; simpl.
  destruct (p_id d); assumption.
Qed.

Lemma placeholder_inv_initial : placeholder_inv initialWorld.
Proof. repeat split. now left. Qed.

Lemma placeholder_inv_resume (c : Call) (r : Settlement) (s s' : AppState) (n : nat) :
  call_on_persisted c = true ->
  on_persisted (settles n r) = true ->
  resume c r s = Some s' ->
  In 0 (isLoadingTodo s) ->
  forallb persisted (todos s) = true ->
  In 0 (isLoadingTodo s') /\ forallb persisted (todos s') = true.
Proof.
  intros Hc He Hr H0 Ht.
  destruct c as [u|nt|i|i d]; simpl in Hc.
  - destruct r; simpl in Hr; inversion Hr; subst s'; simpl; auto.
  - destruct r; simpl in Hr; inversion Hr; subst s'; simpl; auto.
    split; [assumption|]. rewrite forallb_app, Ht. simpl in *. now rewrite He.
  - apply Z.ltb_lt in Hc.
    assert (In 0 (filter (fun j => neq j i) (isLoadingTodo s)))
      by (apply in_filter_neq; [lia|assumption]).
    destruct r; simpl in Hr; inversion Hr; subst s'; simpl;
      (split; [assumption|]); auto using forallb_filter.
  - apply andb_true_iff in Hc. destruct Hc as [Hi Hd]. apply Z.ltb_lt in Hi.
    assert (In 0 (filter (fun j => neq j i) (isLoadingTodo s)))
      by (apply in_filter_neq; [lia|assumption]).
    destruct r; simpl in Hr; inversion Hr; subst s'; simpl;
      (split; [assumption|]); auto using persisted_edit_merge.
Qed.

Lemma placeholder_inv_step (e : Event) (w : World) :
  on_persisted e = true -> placeholder_inv w -> placeholder_inv (step e w).
Proof.
  intros He (H0 & Ht & Hf). unfold placeholder_inv, step.
  destruct e; simpl in *.
  - repeat split; auto. rewrite forallb_app, Hf. reflexivity.
  - repeat split; auto.
    + apply in_or_app. now left.
    + rewrite forallb_app, Hf. simpl. now rewrite He.
  - repeat split; auto.
    + apply in_or_app. now left.
    + rewrite forallb_app, Hf. simpl. now rewrite He.
  - rewrite fold_call_remove. simpl. repeat split; auto.
    + apply in_or_app. now left.
    + rewrite forallb_app, Hf. now apply persisted_removals.
  - rewrite fold_call_edit. simpl. repeat split; auto.
    + apply in_or_app. now left.
    + rewrite forallb_app, Hf. now apply persisted_toggle_edits.
  - auto.
  - auto.
  - auto.
  - auto.
  - destruct (nth_error (inflight w) n) as [c|] eqn:Hn; [|auto].
    destruct (resume c r (app w)) as [s'|] eqn:Hr; [|auto]. simpl.
    assert (Hc : call_on_persisted c = true) by (eapply forallb_nth_error; eauto).
    destruct (placeholder_inv_resume c r (app w) s' n Hc He Hr H0 Ht) as [H0' Ht'].
    repeat split; auto using forallb_drop_nth.
  - destruct (timer w) as [remaining|]; [|auto].
    destruct (remaining <=? ms)%nat; simpl; auto.
Qed.

Lemma placeholder_inv_run (tr : list Event) (w : World) :
  forallb on_persisted tr = true -> placeholder_inv w -> placeholder_inv (run tr w).
Proof.
  revert w. induction tr as [|e tr IH]; intros w; simpl; [trivial|].
  rewrite andb_true_iff. intros [He Htr] Hw.
  apply IH; [assumption|]. now apply placeholder_inv_step.
Qed.

(** C10.  The pending ids start as [[0]], and as long as the server hands
    out positive ids and removals and edits are asked for persisted records
    only, id 0 is pending after every event; so the pending list is never
    empty. *)
Theorem placeholder_id_stays_pending (tr : list Event) :
  forallb on_persisted tr = true ->
  isLoadingTodo initialState = [0]
  /\ In 0 (isLoadingTodo (app (run tr initialWorld)))
  /\ isLoadingTodo (app (run tr initialWorld)) <> [].
Proof.
  intros Htr.
  destruct (placeholder_inv_run tr initialWorld Htr placeholder_inv_initial)
    as (H0 & _ & _).
  split; [reflexivity|]. split; [assumption|].
  intros E. rewrite E in H0. destruct H0.
Qed.

Lemma placeholder_id_stays_pending_witness :
  isLoadingTodo
    (app (run [settles 0 (resolves_todos [mkTodo 3 USER_ID "x" true]);
               onAddTodo "y";
               onRemoveAllCompletedTodos;
               settles 0 (resolves_todo (mkTodo 4 USER_ID "y" false));
               onToggleAll;
               settles 0 (rejects "503");
               settles 0 resolves_ack] initialWorld))
  <> [].
Proof.
  apply (placeholder_id_stays_pending
           [settles 0 (resolves_todos [mkTodo 3 USER_ID "x" true]);
            onAddTodo "y";
            onRemoveAllCompletedTodos;
            settles 0 (resolves_todo (mkTodo 4 USER_ID "y" false));
            onToggleAll;
            settles 0 (rejects "503");
            settles 0 resolves_ack]).
  reflexivity.
Defined.

(** The restriction to persisted records is needed: a removal asked for
    id 0 takes the placeholder id out of the pending list for good. *)
Lemma removing_id_0_empties_pending :
  isLoadingTodo (app (run [onRemoveTodo 0; settles 1 (rejects "404")] initialWorld)) = [].
Proof. reflexivity. Qed.

(** ** The timeout of the error banner *)

Lemma same_error_true (a b : option string) : same_error a b = true <-> a = b.
Proof.
  destruct a as [x|], b as [y|]; simpl; split; intros H;
    try discriminate; try reflexivity.
  - apply String.eqb_eq in H. now subst.
  - inversion H. apply String.eqb_refl.
Qed.

Lemma same_error_refl (a : option string) : same_error a a = true.
Proof. now apply same_error_true. Qed.

Lemma error_resume_fulfilled (c : Call) (r : Settlement) (s s' : AppState) :
  quiet (settles 0 r) = true -> resume c r s = Some s' -> error s' = error s.
Proof.
  intros Hq Hr.
  destruct c, r; simpl in *; try discriminate; inversion Hr; reflexivity.
Qed.

(** Events other than the passing of time leave the armed timeout to the
    effect, and the quiet ones leave the message alone. *)
Lemma handle_timer (e : Event) (w : World) :
  (forall ms, e <> elapses ms) -> timer (handle e w) = timer w.
Proof.
  intros He. destruct e; simpl; try reflexivity.
  - destruct (nth_error (inflight w) n) as [c|]; [|reflexivity].
    destruct (resume c r (app w)); reflexivity.
  - now elim (He ms).
Qed.

Lemma handle_quiet_error (e : Event) (w : World) :
  quiet e = true -> (forall ms, e <> elapses ms) ->
  error (app (handle e w)) = error (app w).
Proof.
  intros Hq He. destruct e; simpl in *; try discriminate; try reflexivity.
  - now rewrite fold_call_remove.
  - now rewrite fold_call_edit.
  - destruct (nth_error (inflight w) n) as [c|]; [|reflexivity].
    destruct (resume c r (app w)) as [s'|] eqn:Hr; [|reflexivity].
    simpl. eapply error_resume_fulfilled; eauto.
  - now elim (He ms).
Qed.

Lemma step_quiet (e : Event) (w : World) :
  quiet e = true -> (forall ms, e <> elapses ms) ->
  error (app (step e w)) = error (app w) /\ timer (step e w) = timer w.
Proof.
  intros Hq He. unfold step; cbn [app timer].
  rewrite (handle_quiet_error e w Hq He), (handle_timer e w He).
  unfold error_effect. now rewrite same_error_refl.
Qed.

Lemma step_elapses_fires (ms remaining : nat) (w : World) :
  timer w = Some remaining -> (remaining <= ms)%nat ->
  error (app (step (elapses ms) w)) = None /\ timer (step (elapses ms) w) = None.
Proof.
  intros Ht Hle. unfold step, handle. rewrite Ht.
  apply Nat.leb_le in Hle. rewrite Hle. simpl. split; [reflexivity|].
  unfold error_effect. now destruct (same_error (error (app w)) None).
Qed.

Lemma step_elapses_waits (ms remaining : nat) (w : World) :
  timer w = Some remaining -> (ms < remaining)%nat ->
  error (app (step (elapses ms) w)) = error (app w)
  /\ timer (step (elapses ms) w) = Some (remaining - ms)%nat.
Proof.
  intros Ht Hlt. unfold step, handle. rewrite Ht.
  apply Nat.leb_gt in Hlt. rewrite Hlt. simpl. split; [reflexivity|].
  unfold error_effect. now rewrite same_error_refl.
Qed.

Lemma step_elapses_idle (ms : nat) (w : World) :
  timer w = None ->
  error (app (step (elapses ms) w)) = error (app w)
  /\ timer (step (elapses ms) w) = None.
Proof.
  intros Ht. unfold step, handle. rewrite Ht. split; [reflexivity|].
  unfold error_effect. now rewrite same_error_refl.
Qed.

Lemma elapses_or_not (e : Event) :
  (exists ms, e = elapses ms) \/ (forall ms, e <> elapses ms).
Proof.
  destruct e; try (right; intros; discriminate). left. now exists ms.
Qed.

Lemma run_quiet_cleared (tr : list Event) (w : World) :
  forallb quiet tr = true ->
  error (app w) = None -> timer w = None ->
  error (app (run tr w)) = None /\ timer (run tr w) = None.
Proof.
  revert w. induction tr as [|e tr IH]; intros w Hq He Ht; [now split|].
  simpl in Hq. apply andb_true_iff in Hq. destruct Hq as [Hqe Hq].
  simpl. apply IH; [assumption| |].
  - destruct (elapses_or_not e) as [[ms ->]|Hne].
    + destruct (step_elapses_idle ms w Ht) as [H _]. congruence.
    + destruct (step_quiet e w Hqe Hne) as [H _]. congruence.
  - destruct (elapses_or_not e) as [[ms ->]|Hne].
    + now destruct (step_elapses_idle ms w Ht).
    + destruct (step_quiet e w Hqe Hne) as [_ H]. congruence.
Qed.

(** With a timeout armed and no error reported or dismissed meanwhile, the
    message is gone once the time left has passed. *)
Lemma run_quiet_clears (tr : list Event) (w : World) (remaining : nat) :
  forallb quiet tr = true ->
  timer w = Some remaining ->
  (0 < remaining <= elapsed tr)%nat ->
  error (app (run tr w)) = None /\ timer (run tr w) = None.
Proof.
  revert w remaining. induction tr as [|e tr IH]; intros w remaining Hq Ht Hr;
    [simpl in Hr; lia|].
  simpl in Hq. apply andb_true_iff in Hq. destruct Hq as [Hqe Hq].
  change (run (e :: tr) w) with (run tr (step e w)).
  destruct (elapses_or_not e) as [[ms ->]|Hne].
  - simpl in Hr. destruct (Nat.le_gt_cases remaining ms) as [Hle|Hgt].
    + destruct (step_elapses_fires ms remaining w Ht Hle) as [He' Ht'].
      now apply run_quiet_cleared.
    + destruct (step_elapses_waits ms remaining w Ht Hgt) as [_ Ht'].
      apply (IH _ (remaining - ms)%nat); [assumption|assumption|lia].
  - destruct (step_quiet e w Hqe Hne) as [_ Ht'].
    apply (IH _ remaining); [assumption|congruence|].
    destruct e; simpl in Hr; try lia. now elim (Hne ms).
Qed.

(** And it is shown until then. *)
Lemma run_quiet_keeps (tr : list Event) (w : World) (remaining : nat) :
  forallb quiet tr = true ->
  timer w = Some remaining ->
  (elapsed tr < remaining)%nat ->
  error (app (run tr w)) = error (app w)
  /\ timer (run tr w) = Some (remaining - elapsed tr)%nat.
Proof.
  revert w remaining. induction tr as [|e tr IH]; intros w remaining Hq Ht Hr.
  - simpl. split; [reflexivity|]. rewrite Ht. f_equal. lia.
  - simpl in Hq. apply andb_true_iff in Hq. destruct Hq as [Hqe Hq].
    change (run (e :: tr) w) with (run tr (step e w)).
    destruct (elapses_or_not e) as [[ms ->]|Hne].
    + simpl in Hr.
      destruct (step_elapses_waits ms remaining w Ht ltac:(lia)) as [He' Ht'].
      destruct (IH _ (remaining - ms)%nat Hq Ht' ltac:(lia)) as [H1 H2].
      rewrite H1, H2, He'. split; [reflexivity|]. simpl. f_equal. lia.
    + destruct (step_quiet e w Hqe Hne) as [He' Ht'].
      assert (Hel : elapsed (e :: tr) = elapsed tr)
        by (destruct e; try reflexivity; now elim (Hne ms)).
      rewrite Hel in *. rewrite Ht in Ht'.
      destruct (IH _ remaining Hq Ht' Hr) as [H1 H2].
      rewrite H1, H2, He'. now split.
Qed.

Lemma timer_inv_initial : timer_inv initialWorld.
Proof. reflexivity. Qed.

Lemma timer_inv_step (e : Event) (w : World) : timer_inv w -> timer_inv (step e w).
Proof.
  intros Hw.
  destruct (same_error (error (app w)) (error (app (step e w)))) eqn:Hs.
  - apply same_error_true in Hs.
    destruct (elapses_or_not e) as [[ms ->]|Hne].
    + unfold timer_inv in *. destruct (timer w) as [remaining|] eqn:Ht.
      * destruct (Nat.le_gt_cases remaining ms) as [Hle|Hgt].
        -- destruct (step_elapses_fires ms remaining w Ht Hle) as [He' Ht'].
           rewrite Ht', He'. reflexivity.
        -- destruct (step_elapses_waits ms remaining w Ht Hgt) as [He' Ht'].
           rewrite Ht', He'. split; [tauto|lia].
      * destruct (step_elapses_idle ms w Ht) as [He' Ht'].
        now rewrite Ht', He'.
    + unfold timer_inv in *. unfold step in *; cbn [app timer] in *.
      rewrite <- Hs, (handle_timer e w Hne). unfold error_effect.
      rewrite same_error_refl. exact Hw.
  - unfold timer_inv, step in *; cbn [app timer] in *. unfold error_effect.
    rewrite Hs.
    destruct (truthy (error (app (handle e w)))) eqn:Htr;
      [split; [reflexivity|lia] | reflexivity].
Qed.

Lemma timer_inv_run (tr : list Event) (w : World) : timer_inv w -> timer_inv (run tr w).
Proof.
  revert w. induction tr as [|e tr IH]; intros w Hw; [assumption|].
  simpl. apply IH. now apply timer_inv_step.
Qed.

(** A second failure with the message already shown does not re-run the
    effect: two removals fail one after the other, the second one 2 s after
    the first; the timeout armed by the first stays as it is, with 1 s to
    go, and takes the message away 1 s after the second failure. *)
Lemma same_message_keeps_timer :
  let w := run [settles 0 (resolves_todos [mkTodo 1 USER_ID "a" true;
                                           mkTodo 2 USER_ID "b" true]);
                onRemoveAllCompletedTodos;
                settles 0 (rejects "503");
                elapses 2000] initialWorld in
  let w' := step (settles 0 (rejects "503")) w in
  inflight w = [deleteTodo 2]
  /\ timer w = Some 1000%nat
  /\ error (app w') = Some "Unable to delete a todo"
  /\ timer w' = Some 1000%nat
  /\ timer w' <> Some 3000%nat
  /\ error (app (step (elapses 1000) w')) = None.
Proof.
  simpl. repeat split. discriminate.
Qed.

(** C9, amended.  Whenever an event changes the error message to a
    non-empty one (from none, or from a different message), a timeout of
    3000 ms is armed in place of any running one; with no error reported
    and none dismissed meanwhile the message stays while less than 3000 ms
    have passed and is cleared, with no timeout left, once 3000 ms have
    passed.  An explicit dismissal clears the message and leaves no timeout
    armed. *)
Theorem error_auto_dismiss (w : World) (e : Event) (tr : list Event) :
  timer_inv w ->
  (same_error (error (app w)) (error (app (step e w))) = false ->
   truthy (error (app (step e w))) = true ->
   timer (step e w) = Some 3000%nat
   /\ (forallb quiet tr = true -> (elapsed tr < 3000)%nat ->
       error (app (run tr (step e w))) = error (app (step e w)))
   /\ (forallb quiet tr = true -> (3000 <= elapsed tr)%nat ->
       error (app (run tr (step e w))) = None /\ timer (run tr (step e w)) = None))
  /\ error (app (step onCloseError w)) = None
  /\ timer (step onCloseError w) = None.
Proof.
  intros Hw. split.
  - intros Hs Ht.
    assert (H3 : timer (step e w) = Some 3000%nat).
    { unfold step in *; cbn [app timer] in *. unfold error_effect.
      now rewrite Hs, Ht. }
    split; [assumption|]. split; intros Hq Hel.
    + now destruct (run_quiet_keeps tr (step e w) 3000 Hq H3 Hel).
    + apply (run_quiet_clears tr (step e w) 3000 Hq H3). lia.
  - split; [reflexivity|].
    pose proof (timer_inv_step onCloseError w Hw) as H.
    unfold timer_inv in H.
    destruct (timer (step onCloseError w)); [|reflexivity].
    destruct H as [H _]. discriminate.
Qed.

Lemma error_auto_dismiss_witness :
  let w := run [settles 0 (resolves_todos [mkTodo 1 USER_ID "a" true]);
                onRemoveTodo 1;
                settles 0 (rejects "503");
                elapses 2000] initialWorld in
  let w' := step (onAddError "Title should not be empty") w in
  timer w = Some 1000%nat
  /\ timer w' = Some 3000%nat
  /\ error (app (run [elapses 1000; onInputTitle "x"; elapses 2000] w')) = None.
Proof.
  intros w w'. split; [reflexivity|].
  destruct (error_auto_dismiss w (onAddError "Title should not be empty")
              [elapses 1000; onInputTitle "x"; elapses 2000])
    as [H _].
  - vm_compute. split; [reflexivity | lia].
  - destruct H as (H3 & _ & Hc); [reflexivity | reflexivity |].
    split; [exact H3|].
    destruct Hc as [Hc _]; [reflexivity | simpl; lia | exact Hc].
Defined.

(** ** Remove and edit on the collection *)

Lemma filter_absent (todoId : Z) (l : list Todo) :
  has_id todoId l = false -> filter (fun todo => neq (id todo) todoId) l = l.
Proof.
  unfold has_id. induction l as [|t l IH]; simpl; [reflexivity|].
  intros H. apply orb_false_iff in H. destruct H as [Ht Hl].
  unfold neq at 1. rewrite Ht. simpl. now rewrite IH.
Qed.

Lemma edit_merge_absent (todoId : Z) (d : PartialTodo) (l : list Todo) :
  has_id todoId l = false -> edit_merge todoId d l = l.
Proof.
  unfold has_id, edit_merge. induction l as [|t l IH]; simpl; [reflexivity|].
  intros H. apply orb_false_iff in H. destruct H as [Ht Hl].
  unfold neq at 1. rewrite Ht. simpl. now rewrite IH.
Qed.

Lemma has_id_filter (todoId : Z) (l : list Todo) :
  has_id todoId (filter (fun todo => neq (id todo) todoId) l) = false.
Proof.
  unfold has_id. induction l as [|t l IH]; simpl; [reflexivity|].
  destruct (neq (id t) todoId) eqn:E; simpl; [|assumption].
  unfold neq in E. apply negb_true_iff in E. now rewrite E.
Qed.

Lemma filter_drops_one (todoId : Z) (l : list Todo) :
  unique_ids l = true -> has_id todoId l = true ->
  exists l1 todo l2,
    l = l1 ++ todo :: l2 /\ id todo = todoId
    /\ filter (fun t => neq (id t) todoId) l = l1 ++ l2.
Proof.
  induction l as [|t l IH]; simpl; [discriminate|].
  intros Hu Hh. apply andb_true_iff in Hu. destruct Hu as [Hn Hu].
  destruct (id t =? todoId) eqn:E.
  - apply Z.eqb_eq in E. exists [], t, l. split; [reflexivity|]. split; [assumption|].
    unfold neq at 1. subst todoId. rewrite Z.eqb_refl. simpl.
    apply filter_absent. apply negb_true_iff in Hn. exact Hn.
  - simpl in Hh.
    destruct (IH Hu Hh) as (l1 & t0 & l2 & Hl & Hi & Hf).
    exists (t :: l1), t0, l2. split; [now rewrite Hl|]. split; [assumption|].
    unfold neq at 1. rewrite E. simpl. now rewrite Hf.
Qed.

(** With unique ids, a successful remove of a record that is there takes
    out exactly that record and leaves the others where they are. *)
Theorem remove_drops_exactly_one (todoId : Z) (s : AppState) :
  unique_ids (todos s) = true ->
  has_id todoId (todos s) = true ->
  exists l1 todo l2,
    todos s = l1 ++ todo :: l2
    /\ id todo = todoId
    /\ todos (removeTodo_settle todoId (Fulfilled tt) s) = l1 ++ l2.
Proof.
  intros Hu Hh. exact (filter_drops_one todoId (todos s) Hu Hh).
Qed.

Lemma remove_drops_exactly_one_witness :
  exists l1 todo l2,
    [mkTodo 1 USER_ID "a" true; mkTodo 2 USER_ID "b" false; mkTodo 3 USER_ID "c" true]
    = l1 ++ todo :: l2
    /\ id todo = 2
    /\ todos (removeTodo_settle 2 (Fulfilled tt)
                (setTodos (fun _ => [mkTodo 1 USER_ID "a" true;
                                     mkTodo 2 USER_ID "b" false;
                                     mkTodo 3 USER_ID "c" true]) initialState))
       = l1 ++ l2.
Proof.
  apply (remove_drops_exactly_one 2
           (setTodos (fun _ => [mkTodo 1 USER_ID "a" true;
                                mkTodo 2 USER_ID "b" false;
                                mkTodo 3 USER_ID "c" true]) initialState));
    reflexivity.
Defined.

(** A successful remove or edit of an id that no record carries leaves the
    collection as it is. *)
Theorem absent_id_noop (todoId : Z) (d : PartialTodo) (s : AppState) :
  has_id todoId (todos s) = false ->
  todos (removeTodo_settle todoId (Fulfilled tt) s) = todos s
  /\ todos (editTodo_settle todoId d (Fulfilled tt) s) = todos s.
Proof.
  intros H. split; simpl.
  - now apply filter_absent.
  - now apply edit_merge_absent.
Qed.

Lemma absent_id_noop_witness :
  let s := setTodos (fun _ => [mkTodo 1 USER_ID "a" true]) initialState in
  todos (removeTodo_settle 9 (Fulfilled tt) s) = todos s
  /\ todos (editTodo_settle 9 (only_completed false) (Fulfilled tt) s) = todos s.
Proof.
  intros s. apply (absent_id_noop 9 (only_completed false) s). reflexivity.
Defined.

Lemma map_id_edit_merge (todoId : Z) (d : PartialTodo) (l : list Todo) :
  p_id d = None -> map id (edit_merge todoId d l) = map id l.
Proof.
  intros Hd. unfold edit_merge. rewrite map_map. apply map_ext. intros t.
  destruct (neq (id t) todoId); [reflexivity|]. simpl. now rewrite Hd.
Qed.

Lemma existsb_by_ids (x : Z) (l l' : list Todo) :
  map id l = map id l' ->
  existsb (fun u => id u =? x) l = existsb (fun u => id u =? x) l'.
Proof.
  revert l'. induction l as [|t l IH]; intros [|t' l'] H; simpl in *;
    try discriminate; [reflexivity|].
  injection H as Ht Hl. rewrite Ht. f_equal. now apply IH.
Qed.

Lemma unique_ids_by_ids (l l' : list Todo) :
  map id l = map id l' -> unique_ids l = unique_ids l'.
Proof.
  revert l'. induction l as [|t l IH]; intros [|t' l'] H; simpl in *;
    try discriminate; [reflexivity|].
  injection H as Ht Hl. rewrite Ht, (existsb_by_ids (id t') l l' Hl).
  f_equal. now apply IH.
Qed.

Lemma existsb_filter_false {A : Type} (p q : A -> bool) (l : list A) :
  existsb p l = false -> existsb p (filter q l) = false.
Proof.
  induction l as [|x l IH]; simpl; [trivial|].
  intros H. apply orb_false_iff in H. destruct H as [Hx Hl].
  destruct (q x); simpl; [rewrite Hx|]; now apply IH.
Qed.

Lemma unique_ids_filter (q : Todo -> bool) (l : list Todo) :
  unique_ids l = true -> unique_ids (filter q l) = true.
Proof.
  induction l as [|t l IH]; simpl; [trivial|].
  intros H. apply andb_true_iff in H. destruct H as [Hn Hu].
  destruct (q t); simpl; [|now apply IH].
  rewrite (IH Hu), andb_true_r. apply negb_true_iff in Hn.
  apply negb_true_iff. now apply existsb_filter_false.
Qed.

(** Uniqueness of the ids in the collection survives every settlement of a
    remove, and every settlement of an edit that carries no id. *)
Theorem unique_ids_kept (todoId : Z) (d : PartialTodo) (r : Outcome unit) (s : AppState) :
  unique_ids (todos s) = true ->
  p_id d = None ->
  unique_ids (todos (removeTodo_settle todoId r s)) = true
  /\ unique_ids (todos (editTodo_settle todoId d r s)) = true
  /\ map id (todos (editTodo_settle todoId d r s)) = map id (todos s).
Proof.
  intros Hu Hd. destruct r; simpl; repeat split; try assumption.
  - now apply unique_ids_filter.
  - rewrite (unique_ids_by_ids _ (todos s)); [assumption|].
    now apply map_id_edit_merge.
  - now apply map_id_edit_merge.
Qed.

Lemma unique_ids_kept_witness :
  let s := setTodos (fun _ => [mkTodo 1 USER_ID "a" true; mkTodo 2 USER_ID "b" false])
                    initialState in
  unique_ids (todos (removeTodo_settle 1 (Fulfilled tt) s)) = true
  /\ unique_ids (todos (editTodo_settle 2 (only_completed true) (Fulfilled tt) s)) = true.
Proof.
  intros s.
  destruct (unique_ids_kept 1 (only_completed true) (Fulfilled tt) s) as (H1 & _);
    [reflexivity | reflexivity |].
  destruct (unique_ids_kept 2 (only_completed true) (Fulfilled tt) s) as (_ & H2 & _);
    [reflexivity | reflexivity |].
  split; assumption.
Defined.

(** An edit that rewrites the id can break uniqueness, so the restriction
    above is needed. *)
Lemma id_edit_breaks_uniqueness :
  let s := setTodos (fun _ => [mkTodo 1 USER_ID "a" true; mkTodo 2 USER_ID "b" false])
                    initialState in
  unique_ids (todos s) = true
  /\ unique_ids
       (todos (editTodo_settle 2 (mkPartial (Some 1) None None None) (Fulfilled tt) s))
     = false.
Proof. split; reflexivity. Qed.

(** ** Settlements in either order *)

Lemma filter_comm {A : Type} (p q : A -> bool) (l : list A) :
  filter p (filter q l) = filter q (filter p l).
Proof.
  induction l as [|x l IH]; simpl; [reflexivity|].
  destruct (p x) eqn:Hp, (q x) eqn:Hq; simpl; rewrite ?Hp, ?Hq, IH; reflexivity.
Qed.

Lemma id_spread (todo : Todo) (d : PartialTodo) :
  p_id d = None -> id (spread todo d) = id todo.
Proof. intros H. simpl. now rewrite H. Qed.

Lemma edit_merge_comm (i j : Z) (d1 d2 : PartialTodo) (l : list Todo) :
  i <> j -> p_id d1 = None -> p_id d2 = None ->
  edit_merge i d1 (edit_merge j d2 l) = edit_merge j d2 (edit_merge i d1 l).
Proof.
  intros Hij H1 H2. unfold edit_merge. rewrite !map_map. apply map_ext. intros t.
  destruct (neq (id t) i) eqn:Ei, (neq (id t) j) eqn:Ej;
    rewrite ?Ei, ?Ej, ?id_spread, ?Ei, ?Ej by assumption; try reflexivity.
  apply neq_false_iff in Ei, Ej. congruence.
Qed.

(** Two edits of different records, neither carrying an id, leave the same
    state whichever settles first, whatever their outcomes. *)
Theorem edits_commute (i j : Z) (d1 d2 : PartialTodo) (r1 r2 : Outcome unit)
    (s : AppState) :
  i <> j -> p_id d1 = None -> p_id d2 = None ->
  editTodo_settle i d1 r1 (editTodo_settle j d2 r2 s)
  = editTodo_settle j d2 r2 (editTodo_settle i d1 r1 s).
Proof.
  intros Hij H1 H2.
  pose proof (filter_comm (fun x => neq x i) (fun x => neq x j) (isLoadingTodo s)) as Hf.
  pose proof (edit_merge_comm i j d1 d2 (todos s) Hij H1 H2) as Hm.
  destruct r1, r2; unfold editTodo_settle, setIsLoading, setTodos, setError; simpl;
    rewrite Hf; try rewrite Hm; reflexivity.
Qed.

Lemma edits_commute_witness :
  let s := setTodos (fun _ => [mkTodo 1 USER_ID "a" true; mkTodo 2 USER_ID "b" false])
                    initialState in
  editTodo_settle 1 (only_completed false) (Fulfilled tt)
    (editTodo_settle 2 (only_completed true) Rejected s)
  = editTodo_settle 2 (only_completed true) Rejected
      (editTodo_settle 1 (only_completed false) (Fulfilled tt) s).
Proof.
  intros s.
  apply (edits_commute 1 2 (only_completed false) (only_completed true)
           (Fulfilled tt) Rejected s); [lia | reflexivity | reflexivity].
Defined.

(** Two successful edits of the same record: the fields of the one that
    settles last win, the others are those of the first. *)
Theorem last_edit_wins (todoId : Z) (d1 d2 : PartialTodo) (l : list Todo) :
  p_id d1 = None ->
  edit_merge todoId d2 (edit_merge todoId d1 l) = edit_merge todoId (later d1 d2) l.
Proof.
  intros H1. unfold edit_merge. rewrite map_map. apply map_ext. intros t.
  destruct (neq (id t) todoId) eqn:E.
  - now rewrite E.
  - rewrite id_spread, E by assumption.
    destruct t as [ti tu tt tc], d1 as [a1 b1 c1 e1], d2 as [a2 b2 c2 e2].
    simpl in *. subst a1. unfold spread, later; simpl.
    destruct a2, b2, c2, e2; reflexivity.
Qed.

Lemma last_edit_wins_witness :
  edit_merge 2 (only_completed false)
    (edit_merge 2 (only_completed true) [mkTodo 2 USER_ID "b" false])
  = [mkTodo 2 USER_ID "b" false].
Proof.
  rewrite (last_edit_wins 2 (only_completed true) (only_completed false)
             [mkTodo 2 USER_ID "b" false]); reflexivity.
Defined.

(** A remove and an edit of the same record both succeeding leave the
    collection the remove alone leaves, whichever settles first. *)
Theorem remove_absorbs_edit (todoId : Z) (d : PartialTodo) (s : AppState) :
  p_id d = None ->
  todos (removeTodo_settle todoId (Fulfilled tt)
           (editTodo_settle todoId d (Fulfilled tt) s))
  = todos (removeTodo_settle todoId (Fulfilled tt) s)
  /\ todos (editTodo_settle todoId d (Fulfilled tt)
              (removeTodo_settle todoId (Fulfilled tt) s))
     = todos (removeTodo_settle todoId (Fulfilled tt) s).
Proof.
  intros Hd. simpl. split.
  - unfold edit_merge. induction (todos s) as [|t l IH]; simpl; [reflexivity|].
    destruct (neq (id t) todoId) eqn:E; simpl.
    + rewrite E. now rewrite IH.
    + rewrite Hd. simpl. now rewrite E.
  - apply edit_merge_absent, has_id_filter.
Qed.

Lemma remove_absorbs_edit_witness :
  let s := setTodos (fun _ => [mkTodo 1 USER_ID "a" true; mkTodo 2 USER_ID "b" false])
                    initialState in
  todos (removeTodo_settle 2 (Fulfilled tt)
           (editTodo_settle 2 (only_completed true) (Fulfilled tt) s))
  = [mkTodo 1 USER_ID "a" true].
Proof.
  intros s.
  rewrite (proj1 (remove_absorbs_edit 2 (only_completed true) s eq_refl)).
  reflexivity.
Defined.

(** Two removes leave the same state whichever settles first, whatever
    their outcomes; and a remove and an edit of different records, the edit
    carrying no id, leave the same collection and the same pending ids. *)
Theorem removes_commute (i j : Z) (d : PartialTodo) (r1 r2 : Outcome unit)
    (s : AppState) :
  removeTodo_settle i r1 (removeTodo_settle j r2 s)
  = removeTodo_settle j r2 (removeTodo_settle i r1 s)
  /\ (i <> j -> p_id d = None ->
      todos (removeTodo_settle i r1 (editTodo_settle j d r2 s))
      = todos (editTodo_settle j d r2 (removeTodo_settle i r1 s))
      /\ isLoadingTodo (removeTodo_settle i r1 (editTodo_settle j d r2 s))
         = isLoadingTodo (editTodo_settle j d r2 (removeTodo_settle i r1 s))).
Proof.
  pose proof (filter_comm (fun x => neq x i) (fun x => neq x j) (isLoadingTodo s)) as Hf.
  split.
  - pose proof (filter_comm (fun t => neq (id t) i) (fun t => neq (id t) j) (todos s))
      as Ht.
    destruct r1, r2; unfold removeTodo_settle, setIsLoading, setTodos, setError; simpl;
      rewrite Hf; try rewrite Ht; reflexivity.
  - intros Hij Hd. split.
    + destruct r1, r2; simpl; try reflexivity.
      unfold edit_merge. induction (todos s) as [|t l IH]; simpl; [reflexivity|].
      destruct (neq (id t) j) eqn:Ej, (neq (id t) i) eqn:Ei; simpl;
        rewrite ?Ej, ?Ei, ?Hd; simpl; rewrite ?Ei, ?IH; reflexivity.
    + destruct r1, r2; exact Hf.
Qed.

Lemma removes_commute_witness :
  let s := setTodos (fun _ => [mkTodo 1 USER_ID "a" true; mkTodo 2 USER_ID "b" false])
                    initialState in
  todos (removeTodo_settle 1 (Fulfilled tt)
           (editTodo_settle 2 (only_completed true) (Fulfilled tt) s))
  = todos (editTodo_settle 2 (only_completed true) (Fulfilled tt)
             (removeTodo_settle 1 (Fulfilled tt) s)).
Proof.
  intros s.
  destruct (removes_commute 1 2 (only_completed true) (Fulfilled tt) (Fulfilled tt) s)
    as [_ H].
  destruct H as [H _]; [lia | reflexivity | exact H].
Defined.

(** ** Pending calls settling one after the other *)

Lemma resume_mutation (c : Call) (r : Settlement) (s : AppState) :
  is_mutation c = true -> exists s', resume c r s = Some s'.
Proof.
  destruct c; simpl; try discriminate; intros _; destruct r; eexists; reflexivity.
Qed.

Lemma run_settles_in_order (cs : list Call) (rs : list Settlement) (w : World) :
  inflight w = cs ->
  List.length rs = List.length cs ->
  forallb is_mutation cs = true ->
  app (run (map (settles 0) rs) w) = settled (combine cs rs) (app w)
  /\ inflight (run (map (settles 0) rs) w) = [].
Proof.
  revert rs w. induction cs as [|c cs IH]; intros [|r rs] w Hf Hl Hm;
    simpl in Hl; try discriminate.
  - now split.
  - simpl in Hm. apply andb_true_iff in Hm. destruct Hm as [Hc Hm].
    destruct (resume_mutation c r (app w) Hc) as [s' Hr].
    assert (Hn : nth_error (inflight w) 0 = Some c) by now rewrite Hf.
    destruct (step_settles w 0 c r s' Hn Hr) as [Ha Hi].
    rewrite Hf in Hi. simpl in Hi.
    change (run (map (settles 0) (r :: rs)) w)
      with (run (map (settles 0) rs) (step (settles 0 r) w)).
    destruct (IH rs (step (settles 0 r) w) Hi ltac:(lia) Hm) as [H1 H2].
    split; [|assumption]. rewrite H1, Ha. unfold settled. simpl. now rewrite Hr.
Qed.

Lemma filter_filter {A : Type} (p q : A -> bool) (l : list A) :
  filter p (filter q l) = filter (fun x => q x && p x) l.
Proof.
  induction l as [|x l IH]; simpl; [reflexivity|].
  destruct (q x); simpl; [destruct (p x)|]; now rewrite IH.
Qed.

Lemma filter_all {A : Type} (l : list A) : filter (fun _ => true) l = l.
Proof. induction l as [|x l IH]; simpl; now rewrite ?IH. Qed.

Lemma settled_cons (c : Call) (r : Settlement) (crs : list (Call * Settlement))
    (s : AppState) :
  settled ((c, r) :: crs) s
  = settled crs (match resume c r s with Some s' => s' | None => s end).
Proof. reflexivity. Qed.

Lemma resume_delete (i : Z) (r : Settlement) (s : AppState) :
  resume (deleteTodo i) r s
  = Some (removeTodo_settle i (if rejected r then Rejected else Fulfilled tt) s).
Proof. now destruct r. Qed.

Lemma resume_update (i : Z) (d : PartialTodo) (r : Settlement) (s : AppState) :
  resume (updateTodo i d) r s
  = Some (editTodo_settle i d (if rejected r then Rejected else Fulfilled tt) s).
Proof. now destruct r. Qed.

(** The removals [ids] settling with outcomes [rs]: a record goes iff a
    removal of its id is fulfilled. *)
Lemma settled_deletes (ids : list Z) (rs : list Settlement) (s : AppState) :
  todos (settled (combine (map deleteTodo ids) rs) s)
  = filter
      (fun todo =>
         negb (existsb (fun p => (id todo =? fst p) && negb (rejected (snd p)))
                       (combine ids rs)))
      (todos s).
Proof.
  revert rs s. induction ids as [|i ids IH]; intros rs s.
  - simpl. now rewrite filter_all.
  - destruct rs as [|r rs].
    + simpl. now rewrite filter_all.
    + simpl combine. rewrite settled_cons, resume_delete, IH.
      destruct (rejected r) eqn:Er; simpl todos.
      * apply filter_ext. intros t. simpl. now rewrite Er, andb_false_r.
      * rewrite filter_filter. apply filter_ext. intros t. simpl.
        rewrite Er, andb_true_r. unfold neq. now rewrite negb_orb.
Qed.

Lemma error_settled_deletes (ids : list Z) (rs : list Settlement) (s : AppState) :
  List.length rs = List.length ids ->
  error (settled (combine (map deleteTodo ids) rs) s)
  = if existsb rejected rs then Some "Unable to delete a todo" else error s.
Proof.
  revert rs s. induction ids as [|i ids IH]; intros [|r rs] s Hl; simpl in Hl;
    try discriminate; [reflexivity|].
  simpl combine. rewrite settled_cons, resume_delete, IH by lia. simpl existsb.
  destruct (rejected r); simpl; [|reflexivity].
  now destruct (existsb rejected rs).
Qed.

(** The edits [edits] all fulfilled: their merges applied in order. *)
Lemma settled_updates (edits : list (Z * PartialTodo)) (rs : list Settlement)
    (s : AppState) :
  List.length rs = List.length edits ->
  existsb rejected rs = false ->
  todos (settled (combine (map (fun c => updateTodo (fst c) (snd c)) edits) rs) s)
  = fold_left (fun cur c => edit_merge (fst c) (snd c) cur) edits (todos s)
  /\ error (settled (combine (map (fun c => updateTodo (fst c) (snd c)) edits) rs) s)
     = error s.
Proof.
  revert rs s. induction edits as [|[i d] edits IH]; intros [|r rs] s Hl Hr;
    simpl in Hl; try discriminate.
  - now split.
  - simpl in Hr. apply orb_false_iff in Hr. destruct Hr as [Hr Hrs].
    simpl map. simpl combine. rewrite settled_cons, resume_update, Hr.
    destruct (IH rs (editTodo_settle i d (Fulfilled tt) s) ltac:(lia) Hrs) as [H1 H2].
    now rewrite H1, H2.
Qed.

(** ** The bulk toggle on any collection *)

Lemma run_app (tr1 tr2 : list Event) (w : World) :
  run (tr1 ++ tr2) w = run tr2 (run tr1 w).
Proof. unfold run. apply fold_left_app. Qed.

Lemma updates_are_mutations (edits : list (Z * PartialTodo)) :
  forallb is_mutation (map (fun c => updateTodo (fst c) (snd c)) edits) = true.
Proof. induction edits as [|c edits IH]; simpl; [reflexivity|assumption]. Qed.

Lemma deletes_are_mutations (ids : list Z) :
  forallb is_mutation (map deleteTodo ids) = true.
Proof. induction ids as [|i ids IH]; simpl; [reflexivity|assumption]. Qed.

Lemma run_toggle_all (w : World) (rs : list Settlement) :
  inflight w = [] ->
  List.length rs = List.length (handleToggleCompletedToActive (todos (app w))) ->
  existsb rejected rs = false ->
  let w' := run (onToggleAll :: map (settles 0) rs) w in
  todos (app w')
  = map (fun todo =>
           spread todo (only_completed (negb (areAllCompleted (todos (app w))))))
        (todos (app w))
  /\ inflight w' = []
  /\ error (app w') = error (app w).
Proof.
  intros Hf Hl Hr w'. subst w'.
  change (run (onToggleAll :: map (settles 0) rs) w)
    with (run (map (settles 0) rs) (step onToggleAll w)).
  set (edits := handleToggleCompletedToActive (todos (app w))) in *.
  assert (Hi : inflight (step onToggleAll w)
               = map (fun c => updateTodo (fst c) (snd c)) edits).
  { unfold step, handle. fold edits. rewrite fold_call_edit. simpl. now rewrite Hf. }
  assert (Ha : app (step onToggleAll w)
               = setIsLoading (fun cur => cur ++ map fst edits) (app w)).
  { unfold step, handle. fold edits. rewrite fold_call_edit. reflexivity. }
  destruct (run_settles_in_order _ rs (step onToggleAll w) Hi
              ltac:(rewrite length_map; exact Hl) (updates_are_mutations edits))
    as [H1 H2].
  destruct (settled_updates edits rs (app (step onToggleAll w)) Hl Hr) as [H3 H4].
  rewrite H1, H3, H4, Ha. simpl todos. simpl error.
  split; [|now split]. apply toggle_all_succeeding.
Qed.

Lemma count_after_toggle (b : bool) (l : list Todo) :
  List.length (filter (fun todo => completed todo)
                      (map (fun todo => spread todo (only_completed b)) l))
  = (if b then List.length l else 0%nat)
  /\ List.length (filter (fun todo => negb (completed todo))
                         (map (fun todo => spread todo (only_completed b)) l))
     = (if b then 0%nat else List.length l).
Proof.
  induction l as [|t l [IH1 IH2]]; [now destruct b|].
  destruct b; simpl in *; now rewrite ?IH1, ?IH2.
Qed.

(** A bulk toggle with nothing else in flight, all of whose edits are
    fulfilled: every record ends with the flag the toggle aimed at and is
    otherwise as before, nothing stays in flight, the message is untouched,
    and the two counters are 0 and the size of the collection. *)
Theorem toggle_all_settles (w : World) (rs : list Settlement) :
  inflight w = [] ->
  List.length rs = List.length (handleToggleCompletedToActive (todos (app w))) ->
  existsb rejected rs = false ->
  let w' := run (onToggleAll :: map (settles 0) rs) w in
  let all := areAllCompleted (todos (app w)) in
  todos (app w')
  = map (fun todo => spread todo (only_completed (negb all))) (todos (app w))
  /\ inflight w' = []
  /\ error (app w') = error (app w)
  /\ activeTodosCount (app w') = (if all then List.length (todos (app w)) else 0%nat)
  /\ completedTodosCount (app w')
     = (if all then 0%nat else List.length (todos (app w))).
Proof.
  intros Hf Hl Hr w' all.
  destruct (run_toggle_all w rs Hf Hl Hr) as (H1 & H2 & H3). fold w' in H1, H2, H3.
  fold all in H1.
  split; [assumption|]. split; [assumption|]. split; [assumption|].
  unfold activeTodosCount, completedTodosCount. rewrite H1.
  destruct (count_after_toggle (negb all) (todos (app w))) as [C1 C2].
  rewrite C1, C2. now destruct all.
Qed.

Lemma toggle_all_settles_witness :
  let w := run [settles 0 (resolves_todos [mkTodo 1 USER_ID "a" true;
                                           mkTodo 2 USER_ID "b" false;
                                           mkTodo 3 USER_ID "c" false])]
               initialWorld in
  let w' := run (onToggleAll :: map (settles 0) [resolves_ack; resolves_ack]) w in
  map completed (todos (app w')) = [true; true; true]
  /\ activeTodosCount (app w') = 0%nat.
Proof.
  intros w w'.
  destruct (toggle_all_settles w [resolves_ack; resolves_ack])
    as (H1 & _ & _ & H2 & _); [reflexivity | reflexivity | reflexivity |].
  fold w' in H1, H2. split; [now rewrite H1 | exact H2].
Defined.

Lemma toggle_edits_length_uniform (l : list Todo) :
  areAllCompleted l || forallb (fun todo => negb (completed todo)) l = true ->
  List.length (handleToggleCompletedToActive l) = List.length l.
Proof.
  intros H. rewrite toggle_edits. destruct (areAllCompleted l) eqn:Ha.
  - now rewrite length_map.
  - simpl in H. rewrite length_map. f_equal.
    clear Ha. induction l as [|t l IH]; simpl in *; [reflexivity|].
    apply andb_true_iff in H. destruct H as [Ht Hl]. rewrite Ht. f_equal. now apply IH.
Qed.

Lemma toggled_uniform (b : bool) (l : list Todo) :
  areAllCompleted (map (fun todo => spread todo (only_completed b)) l)
  || forallb (fun todo => negb (completed todo))
             (map (fun todo => spread todo (only_completed b)) l) = true.
Proof.
  unfold areAllCompleted. induction l as [|t l IH]; [reflexivity|].
  destruct b; simpl in *.
  - apply orb_true_iff in IH. destruct IH as [IH|IH]; [now rewrite IH|].
    destruct l; [reflexivity|discriminate].
  - apply orb_true_iff in IH. destruct IH as [IH|IH]; [|now rewrite IH].
    destruct l; [reflexivity|discriminate].
Qed.

Lemma all_completed_after (b : bool) (l : list Todo) :
  l <> [] ->
  areAllCompleted (map (fun todo => spread todo (only_completed b)) l) = b.
Proof.
  unfold areAllCompleted. induction l as [|t l IH]; intros Hne; [congruence|].
  destruct l as [|t' l']; [now destruct b|].
  simpl in *. rewrite IH by discriminate. now destruct b.
Qed.

Lemma toggle_twice_uniform (l : list Todo) :
  areAllCompleted l || forallb (fun todo => negb (completed todo)) l = true ->
  let l' := map (fun todo => spread todo (only_completed (negb (areAllCompleted l)))) l in
  map (fun todo => spread todo (only_completed (negb (areAllCompleted l')))) l' = l.
Proof.
  intros H l'. subst l'.
  assert (Hne : l = [] \/ l <> []) by (destruct l; [now left|now right]).
  destruct Hne as [->|Hne]; [reflexivity|].
  rewrite all_completed_after by assumption. rewrite negb_involutive, map_map.
  transitivity (map (fun todo : Todo => todo) l); [|apply map_id].
  apply map_ext_in. intros t Ht.
  destruct (areAllCompleted l) eqn:Ha.
  - unfold areAllCompleted in Ha. rewrite forallb_forall in Ha. specialize (Ha t Ht).
    destruct t; simpl in *. now subst.
  - simpl in H. rewrite forallb_forall in H. specialize (H t Ht).
    apply negb_true_iff in H. destruct t; simpl in *. now subst.
Qed.

(** Round trip: on a collection whose records are all completed, or all
    not completed, two bulk toggles whose edits are all fulfilled give the
    collection back. *)
Theorem toggle_twice_restores (w : World) (rs1 rs2 : list Settlement) :
  inflight w = [] ->
  areAllCompleted (todos (app w))
  || forallb (fun todo => negb (completed todo)) (todos (app w)) = true ->
  List.length rs1 = List.length (todos (app w)) ->
  List.length rs2 = List.length (todos (app w)) ->
  existsb rejected rs1 = false ->
  existsb rejected rs2 = false ->
  let w' := run ((onToggleAll :: map (settles 0) rs1)
                 ++ (onToggleAll :: map (settles 0) rs2)) w in
  todos (app w') = todos (app w) /\ inflight w' = [].
Proof.
  intros Hf Hu Hl1 Hl2 Hr1 Hr2 w'. subst w'. rewrite run_app.
  rewrite <- (toggle_edits_length_uniform _ Hu) in Hl1.
  destruct (run_toggle_all w rs1 Hf Hl1 Hr1) as (H1 & H2 & _).
  set (w1 := run (onToggleAll :: map (settles 0) rs1) w) in *.
  assert (Hl2' : List.length rs2
                 = List.length (handleToggleCompletedToActive (todos (app w1)))).
  { rewrite toggle_edits_length_uniform; rewrite H1.
    - now rewrite length_map.
    - apply toggled_uniform. }
  destruct (run_toggle_all w1 rs2 H2 Hl2' Hr2) as (H3 & H4 & _).
  split; [|assumption]. rewrite H3, H1. now apply toggle_twice_uniform.
Qed.

Lemma toggle_twice_restores_witness :
  let w := run [settles 0 (resolves_todos [mkTodo 1 USER_ID "a" false;
                                           mkTodo 2 USER_ID "b" false])]
               initialWorld in
  todos (app (run ((onToggleAll :: map (settles 0) [resolves_ack; resolves_ack])
                   ++ (onToggleAll :: map (settles 0) [resolves_ack; resolves_ack]))
                  w))
  = todos (app w).
Proof.
  intros w.
  apply (toggle_twice_restores w [resolves_ack; resolves_ack] [resolves_ack; resolves_ack]);
    reflexivity.
Defined.

(** ** Clearing the completed records *)

Lemma removeAllCompletedTodos_cons (todo : Todo) (l : list Todo) :
  removeAllCompletedTodos (todo :: l)
  = (if completed todo then [id todo] else []) ++ removeAllCompletedTodos l.
Proof. reflexivity. Qed.

Lemma absent_in_removals (x : Z) (g : Settlement -> bool) (l : list Todo)
    (rs : list Settlement) :
  existsb (fun u => id u =? x) l = false ->
  existsb (fun p => (x =? fst p) && g (snd p))
          (combine (removeAllCompletedTodos l) rs) = false.
Proof.
  revert rs. induction l as [|t l IH]; intros rs H; [reflexivity|].
  simpl in H. apply orb_false_iff in H. destruct H as [Ht Hl].
  rewrite removeAllCompletedTodos_cons.
  destruct (completed t); simpl; [|now apply IH].
  destruct rs as [|r rs]; [reflexivity|]. simpl.
  rewrite Z.eqb_sym, Ht. simpl. now apply IH.
Qed.

Lemma clear_with_filter (l : list Todo) (rs : list Settlement) :
  unique_ids l = true ->
  filter
    (fun todo =>
       negb (existsb (fun p => (id todo =? fst p) && negb (rejected (snd p)))
                     (combine (removeAllCompletedTodos l) rs)))
    l
  = clear_with l rs.
Proof.
  revert rs. induction l as [|t l IH]; intros rs Hu; [reflexivity|].
  simpl in Hu. apply andb_true_iff in Hu. destruct Hu as [Hn Hu].
  apply negb_true_iff in Hn.
  rewrite removeAllCompletedTodos_cons. simpl filter. simpl clear_with.
  destruct (completed t) eqn:Hc; simpl app.
  - destruct rs as [|r rs].
    + simpl. f_equal. rewrite <- (IH [] Hu).
      apply filter_ext. intros u. now rewrite combine_nil.
    + simpl combine. simpl existsb. rewrite Z.eqb_refl. simpl andb.
      rewrite (absent_in_removals (id t) (fun r => negb (rejected r)) l rs Hn).
      rewrite orb_false_r, negb_involutive.
      assert (Hext : filter
                (fun todo =>
                   negb ((id todo =? id t) && negb (rejected r)
                         || existsb (fun p => (id todo =? fst p) && negb (rejected (snd p)))
                                    (combine (removeAllCompletedTodos l) rs))) l
                = clear_with l rs).
      { rewrite <- (IH rs Hu). apply filter_ext_in. intros u Hin.
        assert (E : (id u =? id t) = false).
        { destruct (id u =? id t) eqn:E; [|reflexivity].
          assert (existsb (fun u0 => id u0 =? id t) l = true)
            by (apply existsb_exists; now exists u).
          congruence. }
        now rewrite E. }
      rewrite Hext. reflexivity.
  - change ([] ++ removeAllCompletedTodos l) with (removeAllCompletedTodos l).
    rewrite (absent_in_removals (id t) (fun r => negb (rejected r)) l rs Hn).
    simpl. f_equal. now apply IH.
Qed.

Lemma clear_with_all_fulfilled (l : list Todo) (rs : list Settlement) :
  List.length rs = List.length (removeAllCompletedTodos l) ->
  existsb rejected rs = false ->
  clear_with l rs = filter (fun todo => negb (completed todo)) l.
Proof.
  revert rs. induction l as [|t l IH]; intros rs Hl Hr; [reflexivity|].
  rewrite removeAllCompletedTodos_cons in Hl. simpl.
  destruct (completed t); simpl in *.
  - destruct rs as [|r rs]; [discriminate|]. simpl in *.
    apply orb_false_iff in Hr. destruct Hr as [Hr Hrs]. rewrite Hr.
    apply IH; [lia|assumption].
  - f_equal. now apply IH.
Qed.

Lemma length_removeAllCompletedTodos (l : list Todo) :
  List.length (removeAllCompletedTodos l)
  = List.length (filter (fun todo => completed todo) l).
Proof.
  induction l as [|t l IH]; [reflexivity|].
  rewrite removeAllCompletedTodos_cons, length_app, IH. simpl.
  now destruct (completed t).
Qed.

(** Clearing the completed records of a collection with unique ids,
    nothing else in flight, one outcome per removal: each completed record
    goes or stays by the outcome of its own removal, the others stay; the
    message is the one of a failed removal iff some removal failed; and
    when all are fulfilled exactly the not completed records are left. *)
Theorem clear_completed_settles (w : World) (rs : list Settlement) :
  inflight w = [] ->
  unique_ids (todos (app w)) = true ->
  List.length rs = completedTodosCount (app w) ->
  let w' := run (onRemoveAllCompletedTodos :: map (settles 0) rs) w in
  todos (app w') = clear_with (todos (app w)) rs
  /\ inflight w' = []
  /\ error (app w')
     = (if existsb rejected rs then Some "Unable to delete a todo" else error (app w))
  /\ (existsb rejected rs = false ->
      todos (app w') = filter (fun todo => negb (completed todo)) (todos (app w))
      /\ completedTodosCount (app w') = 0%nat).
Proof.
  intros Hf Hu Hl w'. subst w'.
  unfold completedTodosCount in Hl. rewrite <- length_removeAllCompletedTodos in Hl.
  change (run (onRemoveAllCompletedTodos :: map (settles 0) rs) w)
    with (run (map (settles 0) rs) (step onRemoveAllCompletedTodos w)).
  set (ids := removeAllCompletedTodos (todos (app w))) in *.
  assert (Hi : inflight (step onRemoveAllCompletedTodos w) = map deleteTodo ids).
  { unfold step, handle. fold ids. rewrite fold_call_remove. simpl. now rewrite Hf. }
  assert (Ha : app (step onRemoveAllCompletedTodos w)
               = setIsLoading (fun cur => cur ++ ids) (app w)).
  { unfold step, handle. fold ids. rewrite fold_call_remove. reflexivity. }
  destruct (run_settles_in_order _ rs (step onRemoveAllCompletedTodos w) Hi
              ltac:(rewrite length_map; exact Hl) (deletes_are_mutations ids))
    as [H1 H2].
  assert (Ht : todos (app (run (map (settles 0) rs) (step onRemoveAllCompletedTodos w)))
               = clear_with (todos (app w)) rs).
  { rewrite H1, settled_deletes, Ha. simpl todos. now apply clear_with_filter. }
  split; [assumption|]. split; [assumption|]. split.
  - rewrite H1, error_settled_deletes by assumption. now rewrite Ha.
  - intros Hr. unfold completedTodosCount. rewrite Ht.
    rewrite (clear_with_all_fulfilled _ rs Hl Hr). split; [reflexivity|].
    clear. induction (todos (app w)) as [|t l IH]; simpl; [reflexivity|].
    destruct (completed t) eqn:E; simpl; rewrite ?E; exact IH.
Qed.

Lemma clear_completed_settles_witness :
  let w := run [settles 0 (resolves_todos [mkTodo 1 USER_ID "a" true;
                                           mkTodo 2 USER_ID "b" false;
                                           mkTodo 3 USER_ID "c" true])]
               initialWorld in
  let w' := run (onRemoveAllCompletedTodos
                 :: map (settles 0) [rejects "503"; resolves_ack]) w in
  todos (app w') = [mkTodo 1 USER_ID "a" true; mkTodo 2 USER_ID "b" false]
  /\ error (app w') = Some "Unable to delete a todo".
Proof.
  intros w w'.
  destruct (clear_completed_settles w [rejects "503"; resolves_ack])
    as (H1 & _ & H2 & _); [reflexivity | reflexivity | reflexivity |].
  fold w' in H1, H2. split; [exact H1 | exact H2].
Defined.

(** ** What holds after every event *)

(** Along every run from the mount, a timeout is armed exactly while the
    message shown is non-empty, and it never has more than 3000 ms to go. *)
Theorem timer_armed_iff_message (tr : list Event) :
  let w := run tr initialWorld in
  (timer w = None <-> truthy (error (app w)) = false)
  /\ (forall remaining, timer w = Some remaining -> (0 < remaining <= 3000)%nat).
Proof.
  intros w. pose proof (timer_inv_run tr initialWorld timer_inv_initial) as H.
  fold w in H. unfold timer_inv in H. destruct (timer w) as [r|].
  - destruct H as [H1 H2]. split.
    + split; [discriminate|congruence].
    + intros r' E. now inversion E; subst.
  - split; [tauto|discriminate].
Qed.

Lemma run_quiet_idle (tr : list Event) (w : World) :
  forallb quiet tr = true ->
  timer w = None ->
  error (app (run tr w)) = error (app w) /\ timer (run tr w) = None.
Proof.
  revert w. induction tr as [|e tr IH]; intros w Hq Ht; [now split|].
  simpl in Hq. apply andb_true_iff in Hq. destruct Hq as [Hqe Hq].
  change (run (e :: tr) w) with (run tr (step e w)).
  assert (H : error (app (step e w)) = error (app w) /\ timer (step e w) = None).
  { destruct (elapses_or_not e) as [[ms ->]|Hne].
    - now apply step_elapses_idle.
    - destruct (step_quiet e w Hqe Hne) as [H1 H2]. split; congruence. }
  destruct H as [H1 H2]. destruct (IH _ Hq H2) as [H3 H4].
  split; [congruence|assumption].
Qed.

(** A message that is null or the empty string arms no timeout: as long as
    no error is reported and none dismissed, it stays whatever time passes. *)
Theorem falsy_message_stays (tr0 tr : list Event) :
  let w := run tr0 initialWorld in
  truthy (error (app w)) = false ->
  forallb quiet tr = true ->
  error (app (run tr w)) = error (app w) /\ timer (run tr w) = None.
Proof.
  intros w Hf Hq. apply run_quiet_idle; [assumption|].
  pose proof (timer_inv_run tr0 initialWorld timer_inv_initial) as H.
  fold w in H. unfold timer_inv in H. destruct (timer w); [|reflexivity].
  destruct H as [H _]. congruence.
Qed.

Lemma falsy_message_stays_witness :
  error (app (run [elapses 5000; onInputTitle "x"; elapses 5000]
                  (run [settles 0 (rejects "")] initialWorld)))
  = Some "".
Proof.
  destruct (falsy_message_stays [settles 0 (rejects "")]
              [elapses 5000; onInputTitle "x"; elapses 5000]) as [H _];
    [reflexivity | reflexivity |].
  rewrite H. reflexivity.
Defined.

(** The initial load failing: the collection stays empty and the server's
    message is shown; a non-empty message is gone once 3000 ms have passed
    with no error reported and none dismissed. *)
Theorem load_failure (message : string) (tr : list Event) :
  message <> "" ->
  forallb quiet tr = true ->
  (3000 <= elapsed tr)%nat ->
  let w := step (settles 0 (rejects message)) initialWorld in
  todos (app w) = []
  /\ error (app w) = Some message
  /\ inflight w = []
  /\ timer w = Some 3000%nat
  /\ error (app (run tr w)) = None.
Proof.
  intros Hm Hq Hel w.
  assert (Ht : timer w = Some 3000%nat).
  { unfold w, step, handle, error_effect. simpl.
    destruct (String.eqb_spec message ""); [contradiction|reflexivity]. }
  repeat split; try assumption.
  apply (run_quiet_clears tr w 3000 Hq Ht). lia.
Qed.

Lemma load_failure_witness :
  error (app (run [elapses 1000; onSelectStatusFilter Active; elapses 2000]
                  (step (settles 0 (rejects "Failed to fetch")) initialWorld)))
  = None.
Proof.
  apply (load_failure "Failed to fetch"
           [elapses 1000; onSelectStatusFilter Active; elapses 2000]);
    [discriminate | reflexivity | simpl; lia].
Defined.

Lemma existsb_drop_nth {A : Type} (p : A -> bool) (n : nat) (l : list A) (c : A) :
  nth_error l n = Some c -> p c = false -> existsb p (drop_nth n l) = existsb p l.
Proof.
  revert n. induction l as [|x l IH]; intros [|n] Hn Hc; simpl in *; try discriminate.
  - inversion Hn; subst. now rewrite Hc.
  - f_equal. now apply IH.
Qed.

Lemma In_drop_nth {A : Type} (n : nat) (l : list A) (c x : A) :
  nth_error l n = Some c -> x <> c -> In x l -> In x (drop_nth n l).
Proof.
  revert n. induction l as [|y l IH]; intros [|n] Hn Hx Hin; simpl in *;
    try discriminate.
  - inversion Hn; subst. destruct Hin; [congruence|assumption].
  - destruct Hin; [now left|right; now apply IH].
Qed.

Lemma mutates_deletes (j : Z) (ids : list Z) :
  In j ids -> existsb (mutates j) (map deleteTodo ids) = true.
Proof.
  intros H. apply existsb_exists. exists (deleteTodo j).
  split; [now apply in_map|]. apply Z.eqb_refl.
Qed.

Lemma mutates_updates (j : Z) (edits : list (Z * PartialTodo)) :
  In j (map fst edits) ->
  existsb (mutates j) (map (fun c => updateTodo (fst c) (snd c)) edits) = true.
Proof.
  intros H. apply in_map_iff in H. destruct H as ([i d] & Hi & Hin). simpl in Hi.
  subst i. apply existsb_exists. exists (updateTodo j d).
  split; [|apply Z.eqb_refl].
  apply in_map_iff. now exists (j, d).
Qed.

Lemma pending_backed_grow (w : World) (s' : AppState) (ids : list Z) (cs : list Call)
    (t : option nat) :
  pending_backed w ->
  isLoadingTodo s' = isLoadingTodo (app w) ++ ids ->
  (forall j, In j ids -> existsb (mutates j) cs = true) ->
  pending_backed {| app := s'; inflight := inflight w ++ cs; timer := t |}.
Proof.
  intros Hw Hs Hc j Hj. simpl in *. rewrite Hs in Hj. rewrite existsb_app.
  apply in_app_or in Hj. destruct Hj as [Hj|Hj].
  - destruct (Hw j Hj) as [H|H]; [now left|right; now rewrite H].
  - right. rewrite (Hc j Hj). apply orb_true_r.
Qed.

Lemma pending_backed_same (w : World) (s' : AppState) (t : option nat) :
  pending_backed w ->
  isLoadingTodo s' = isLoadingTodo (app w) ->
  pending_backed {| app := s'; inflight := inflight w; timer := t |}.
Proof.
  intros Hw Hs j Hj. simpl in *. rewrite Hs in Hj. now apply Hw.
Qed.

Lemma pending_backed_step (e : Event) (w : World) :
  pending_backed w -> pending_backed (step e w).
Proof.
  intros Hw. unfold step.
  destruct e; simpl handle.
  - apply (pending_backed_grow w _ [] _ _ Hw); simpl.
    + now rewrite app_nil_r.
    + intros j [].
  - apply (pending_backed_grow w _ [todoId] _ _ Hw); simpl; [reflexivity|].
    intros j [<-|[]]. simpl. now rewrite Z.eqb_refl.
  - apply (pending_backed_grow w _ [todoId] _ _ Hw); simpl; [reflexivity|].
    intros j [<-|[]]. simpl. now rewrite Z.eqb_refl.
  - rewrite fold_call_remove. simpl.
    apply (pending_backed_grow w _ (removeAllCompletedTodos (todos (app w))) _ _ Hw);
      [reflexivity|intros j; apply mutates_deletes].
  - rewrite fold_call_edit. simpl.
    apply (pending_backed_grow w _
             (map fst (handleToggleCompletedToActive (todos (app w)))) _ _ Hw);
      [reflexivity|intros j; apply mutates_updates].
  - now apply pending_backed_same.
  - now apply pending_backed_same.
  - now apply pending_backed_same.
  - now apply pending_backed_same.
  - destruct (nth_error (inflight w) n) as [c|] eqn:Hn;
      [|destruct w; now apply pending_backed_same].
    destruct (resume c r (app w)) as [s'|] eqn:Hr;
      [|destruct w; now apply pending_backed_same].
    simpl. intros j Hj. simpl in *.
    destruct (mutates j c) eqn:Hm.
    + exfalso. destruct (isLoading_resume j c r (app w) Hm) as (s2 & Hr2 & Hl).
      rewrite Hr in Hr2. inversion Hr2; subst s2. rewrite Hl in Hj.
      exact (not_in_filter_neq j _ Hj).
    + rewrite (existsb_drop_nth _ n _ c Hn Hm). apply Hw.
      destruct c as [u|nt|i|i d].
      * destruct r; simpl in Hr; inversion Hr; subst s'; exact Hj.
      * destruct r; simpl in Hr; inversion Hr; subst s'; exact Hj.
      * rewrite resume_delete in Hr. inversion Hr; subst s'.
        rewrite isLoading_removeTodo_settle in Hj. apply filter_In in Hj. tauto.
      * rewrite resume_update in Hr. inversion Hr; subst s'.
        rewrite isLoading_editTodo_settle in Hj. apply filter_In in Hj. tauto.
  - destruct (timer w) as [remaining|]; [|destruct w; now apply pending_backed_same].
    destruct (remaining <=? ms)%nat; simpl; now apply pending_backed_same.
Qed.

Lemma pending_backed_initial : pending_backed initialWorld.
Proof. intros j [H|[]]. left. now symmetry. Qed.

Lemma pending_backed_run (tr : list Event) (w : World) :
  pending_backed w -> pending_backed (run tr w).
Proof.
  revert w. induction tr as [|e tr IH]; intros w Hw; [assumption|].
  simpl. apply IH. now apply pending_backed_step.
Qed.

(** Along every run from the mount, an id is in the pending list only if
    it is the initial 0 or a remove or edit of that record is in flight: no
    row keeps its loader after its operations have settled. *)
Theorem pending_ids_are_in_flight (tr : list Event) (j : Z) :
  let w := run tr initialWorld in
  In j (isLoadingTodo (app w)) ->
  j = 0 \/ existsb (mutates j) (inflight w) = true.
Proof.
  intros w Hj. exact (pending_backed_run tr initialWorld pending_backed_initial j Hj).
Qed.

Lemma pending_ids_are_in_flight_witness :
  let w := run [settles 0 (resolves_todos [mkTodo 5 USER_ID "x" false]);
                onEditTodo 5 (only_completed true)] initialWorld in
  existsb (mutates 5) (inflight w) = true.
Proof.
  intros w.
  destruct (pending_ids_are_in_flight
              [settles 0 (resolves_todos [mkTodo 5 USER_ID "x" false]);
               onEditTodo 5 (only_completed true)] 5) as [H|H].
  - simpl. right. now left.
  - discriminate.
  - exact H.
Defined.

Lemma placeholder_backed_grow (w : World) (s' : AppState) (cs : list Call)
    (t : option nat) :
  placeholder_backed w ->
  tempTodo s' = tempTodo (app w) ->
  placeholder_backed {| app := s'; inflight := inflight w ++ cs; timer := t |}.
Proof.
  unfold placeholder_backed. simpl. intros Hw ->.
  destruct (tempTodo (app w)); [|exact I].
  destruct Hw as (title & Ht & Hin). exists title. split; [assumption|].
  apply in_or_app. now left.
Qed.

Lemma placeholder_backed_same (w : World) (s' : AppState) (t : option nat) :
  placeholder_backed w ->
  tempTodo s' = tempTodo (app w) ->
  placeholder_backed {| app := s'; inflight := inflight w; timer := t |}.
Proof.
  unfold placeholder_backed. simpl. now intros Hw ->.
Qed.

Lemma placeholder_backed_step (e : Event) (w : World) :
  placeholder_backed w -> placeholder_backed (step e w).
Proof.
  intros Hw. unfold step. destruct e; simpl handle.
  - unfold placeholder_backed. simpl. exists todoTitle. split; [reflexivity|].
    apply in_or_app. right. now left.
  - now apply placeholder_backed_grow.
  - now apply placeholder_backed_grow.
  - rewrite fold_call_remove. now apply placeholder_backed_grow.
  - rewrite fold_call_edit. now apply placeholder_backed_grow.
  - now apply placeholder_backed_same.
  - now apply placeholder_backed_same.
  - now apply placeholder_backed_same.
  - now apply placeholder_backed_same.
  - destruct (nth_error (inflight w) n) as [c|] eqn:Hn;
      [|destruct w; now apply placeholder_backed_same].
    destruct (resume c r (app w)) as [s'|] eqn:Hr;
      [|destruct w; now apply placeholder_backed_same].
    unfold placeholder_backed in *. simpl.
    destruct c as [u|nt|i|i d].
    + assert (E : tempTodo s' = tempTodo (app w))
        by (destruct r; simpl in Hr; inversion Hr; reflexivity).
      rewrite E. destruct (tempTodo (app w)); [|exact I].
      destruct Hw as (title & Ht & Hin). exists title. split; [assumption|].
      eapply In_drop_nth; eauto. discriminate.
    + assert (E : tempTodo s' = None)
        by (destruct r; simpl in Hr; inversion Hr; reflexivity).
      now rewrite E.
    + rewrite resume_delete in Hr. inversion Hr; subst s'.
      assert (E : tempTodo (removeTodo_settle i
                              (if rejected r then Rejected else Fulfilled tt) (app w))
                  = tempTodo (app w)) by now destruct (rejected r).
      rewrite E. destruct (tempTodo (app w)); [|exact I].
      destruct Hw as (title & Ht & Hin). exists title. split; [assumption|].
      eapply In_drop_nth; eauto. discriminate.
    + rewrite resume_update in Hr. inversion Hr; subst s'.
      assert (E : tempTodo (editTodo_settle i d
                              (if rejected r then Rejected else Fulfilled tt) (app w))
                  = tempTodo (app w)) by now destruct (rejected r).
      rewrite E. destruct (tempTodo (app w)); [|exact I].
      destruct Hw as (title & Ht & Hin). exists title. split; [assumption|].
      eapply In_drop_nth; eauto. discriminate.
  - destruct (timer w) as [remaining|]; [|destruct w; now apply placeholder_backed_same].
    destruct (remaining <=? ms)%nat; simpl; now apply placeholder_backed_same.
Qed.

Lemma placeholder_backed_run (tr : list Event) (w : World) :
  placeholder_backed w -> placeholder_backed (run tr w).
Proof.
  revert w. induction tr as [|e tr IH]; intros w Hw; [assumption|].
  simpl. apply IH. now apply placeholder_backed_step.
Qed.

Lemma placeholder_is_in_flight_aux (tr : list Event) (todo : Todo) :
  tempTodo (app (run tr initialWorld)) = Some todo ->
  id todo = 0
  /\ exists todoTitle,
       todo = {| id := 0; userId := USER_ID; title := todoTitle; completed := false |}
       /\ In (createTodo {| n_userId := USER_ID; n_completed := false;
                            n_title := todoTitle |})
             (inflight (run tr initialWorld)).
Proof.
  intros Ht.
  pose proof (placeholder_backed_run tr initialWorld I) as H.
  unfold placeholder_backed in H. rewrite Ht in H.
  destruct H as (ttl & -> & Hin). split; [reflexivity|]. now exists ttl.
Qed.

(** Along every run from the mount, the placeholder, when there is one, has
    id 0, the fixed user id and completed = false, and a [createTodo] for
    its title is still in flight. *)
Theorem placeholder_is_in_flight (tr : list Event) (todo : Todo) :
  let w := run tr initialWorld in
  tempTodo (app w) = Some todo ->
  id todo = 0 /\ userId todo = USER_ID /\ completed todo = false
  /\ In (createTodo {| n_userId := USER_ID; n_completed := false;
                       n_title := title todo |})
        (inflight w).
Proof.
  intros w Ht.
  destruct (placeholder_is_in_flight_aux tr todo Ht) as (_ & ttl & -> & Hin).
  now repeat split.
Qed.

Lemma placeholder_is_in_flight_witness :
  let w := run [onAddTodo "Buy milk"; settles 0 (resolves_todos [])] initialWorld in
  In (createTodo {| n_userId := USER_ID; n_completed := false; n_title := "Buy milk" |})
     (inflight w).
Proof.
  intros w.
  destruct (placeholder_is_in_flight
              [onAddTodo "Buy milk"; settles 0 (resolves_todos [])]
              (mkTodo 0 USER_ID "Buy milk" false)) as (_ & _ & _ & H);
    [reflexivity | exact H].
Defined.

(** When the server hands out positive ids only and removals and edits are
    asked for persisted records only, every record of the collection has a
    positive id along every run: the placeholder is never in it. *)
Theorem collection_is_persisted (tr : list Event) (todo : Todo) :
  forallb on_persisted tr = true ->
  In todo (todos (app (run tr initialWorld))) ->
  0 < id todo /\ tempTodo (app (run tr initialWorld)) <> Some todo.
Proof.
  intros Htr Hin.
  destruct (placeholder_inv_run tr initialWorld Htr placeholder_inv_initial)
    as (_ & Hp & _).
  rewrite forallb_forall in Hp. specialize (Hp todo Hin).
  unfold persisted in Hp. apply Z.ltb_lt in Hp. split; [assumption|].
  intros Ht. destruct (placeholder_is_in_flight_aux tr todo Ht). lia.
Qed.

Lemma collection_is_persisted_witness :
  0 < id (mkTodo 4 USER_ID "y" false).
Proof.
  apply (collection_is_persisted
           [settles 0 (resolves_todos [mkTodo 3 USER_ID "x" true]);
            onAddTodo "y";
            settles 0 (resolves_todo (mkTodo 4 USER_ID "y" false));
            onToggleAll]
           (mkTodo 4 USER_ID "y" false)).
  - reflexivity.
  - simpl. right. now left.
Defined.

(** ** No optimistic update *)

Lemma todos_resume_rejected (c : Call) (r : Settlement) (s s' : AppState) :
  rejected r = true -> resume c r s = Some s' -> todos s' = todos s.
Proof.
  intros Hr H. destruct r; try discriminate.
  destruct c; simpl in H; inversion H; reflexivity.
Qed.

(** The collection changes only when a promise is fulfilled: no user
    action, no rejection and no passing of time touches it. *)
Theorem todos_change_only_on_fulfilment (e : Event) (w : World) :
  fulfils e = false -> todos (app (step e w)) = todos (app w).
Proof.
  intros He. unfold step. simpl app. destruct e; simpl in *; try reflexivity.
  - now rewrite fold_call_remove.
  - now rewrite fold_call_edit.
  - apply negb_false_iff in He.
    destruct (nth_error (inflight w) n) as [c|]; [|reflexivity].
    destruct (resume c r (app w)) as [s'|] eqn:Hr; [|reflexivity].
    simpl. eapply todos_resume_rejected; eauto.
  - destruct (timer w) as [remaining|]; [|reflexivity].
    now destruct (remaining <=? ms)%nat.
Qed.

Lemma todos_change_only_on_fulfilment_witness :
  let w := run [settles 0 (resolves_todos [mkTodo 1 USER_ID "a" true])] initialWorld in
  todos (app (step onRemoveAllCompletedTodos w)) = [mkTodo 1 USER_ID "a" true].
Proof.
  intros w.
  rewrite (todos_change_only_on_fulfilment onRemoveAllCompletedTodos w); reflexivity.
Defined.

(** ** Counters and bulk requests *)

(** The two counters add up to the size of the collection, and the
    toggle-all control is shown active exactly when nothing is active,
    which is when the bulk toggle will set every record to not completed. *)
Theorem counters_consistent (s : AppState) :
  (activeTodosCount s + completedTodosCount s = List.length (todos s))%nat
  /\ (isActiveToggleAllActive s = true <-> activeTodosCount s = 0%nat)
  /\ isActiveToggleAllActive s = areAllCompleted (todos s)
  /\ isVisibleClearCompleted s = negb (activeTodosCount s =? List.length (todos s))%nat.
Proof.
  assert (H : (activeTodosCount s + completedTodosCount s = List.length (todos s))%nat).
  { unfold activeTodosCount, completedTodosCount.
    pose proof (filter_split_length (fun todo => completed todo) (todos s)) as H.
    cbv beta in H. lia. }
  split; [exact H|]. split; [|split].
  - unfold isActiveToggleAllActive. rewrite Nat.eqb_eq. lia.
  - apply isActiveToggleAllActive_all.
  - unfold isVisibleClearCompleted.
    destruct (Nat.ltb_spec 0 (completedTodosCount s));
      destruct (Nat.eqb_spec (activeTodosCount s) (List.length (todos s)));
      simpl; try reflexivity; lia.
Qed.

(** Clearing the completed records starts one [deleteTodo] per completed
    record, the bulk toggle one [updateTodo] per record it edits, in the
    order of the collection; each of these ids is appended to the pending
    list at once, and the collection itself is not touched. *)
Theorem bulk_requests (w : World) :
  let wr := step onRemoveAllCompletedTodos w in
  let wt := step onToggleAll w in
  let b := negb (areAllCompleted (todos (app w))) in
  let edited :=
    if areAllCompleted (todos (app w)) then todos (app w)
    else filter (fun todo => negb (completed todo)) (todos (app w)) in
  inflight wr
  = inflight w
    ++ map (fun todo => deleteTodo (id todo))
           (filter (fun todo => completed todo) (todos (app w)))
  /\ isLoadingTodo (app wr)
     = isLoadingTodo (app w)
       ++ map id (filter (fun todo => completed todo) (todos (app w)))
  /\ inflight wt
     = inflight w ++ map (fun todo => updateTodo (id todo) (only_completed b)) edited
  /\ isLoadingTodo (app wt) = isLoadingTodo (app w) ++ map id edited
  /\ todos (app wr) = todos (app w)
  /\ todos (app wt) = todos (app w).
Proof.
  intros wr wt b edited. subst wr wt. unfold step. simpl app. simpl inflight.
  unfold handle. rewrite fold_call_remove, fold_call_edit. simpl.
  assert (Hr : removeAllCompletedTodos (todos (app w))
               = map id (filter (fun todo => completed todo) (todos (app w)))).
  { unfold removeAllCompletedTodos. apply flat_map_guard. }
  assert (Ht : handleToggleCompletedToActive (todos (app w))
               = map (fun todo => (id todo, only_completed b)) edited).
  { rewrite toggle_edits. subst b edited.
    now destruct (areAllCompleted (todos (app w))). }
  rewrite Hr, Ht, !map_map. simpl. now repeat split.
Qed.

(** ** Add and remove *)

Lemma unique_ids_snoc (l : list Todo) (todo : Todo) :
  unique_ids l = true -> has_id (id todo) l = false ->
  unique_ids (l ++ [todo]) = true.
Proof.
  unfold has_id. induction l as [|t l IH]; simpl; intros Hu Hh; [reflexivity|].
  apply andb_true_iff in Hu. destruct Hu as [Hn Hu].
  apply orb_false_iff in Hh. destruct Hh as [Ht Hl].
  rewrite (IH Hu Hl), andb_true_r. rewrite existsb_app. simpl.
  apply negb_true_iff in Hn. rewrite Hn, Z.eqb_sym, Ht. reflexivity.
Qed.

(** A record created with an id that no record carries keeps the ids
    unique, and removing it again gives the collection back. *)
Theorem add_then_remove_restores (createdTodo : Todo) (s : AppState) :
  has_id (id createdTodo) (todos s) = false ->
  (unique_ids (todos s) = true ->
   unique_ids (todos (addTodo_settle (Fulfilled createdTodo) s)) = true)
  /\ todos (removeTodo_settle (id createdTodo) (Fulfilled tt)
              (addTodo_settle (Fulfilled createdTodo) s))
     = todos s.
Proof.
  intros Hh. split.
  - intros Hu. simpl. now apply unique_ids_snoc.
  - simpl. rewrite filter_app. simpl. rewrite neq_refl, app_nil_r.
    now apply filter_absent.
Qed.

Lemma add_then_remove_restores_witness :
  let s := setTodos (fun _ => [mkTodo 1 USER_ID "a" true]) initialState in
  todos (removeTodo_settle 2 (Fulfilled tt)
           (addTodo_settle (Fulfilled (mkTodo 2 USER_ID "b" false)) s))
  = todos s.
Proof.
  intros s.
  apply (add_then_remove_restores (mkTodo 2 USER_ID "b" false) s). reflexivity.
Defined.
